(** * Memory-minimizing feature generators

    A verification development for
    [autogluon/utils/tabular/features/generators/memory_minimize.py]:
    the [CategoryMemoryMinimizeFeatureGenerator], which relabels the
    categories of categorical columns with the integers [0 .. k-1], and the
    [NumericMemoryMinimizeFeatureGenerator], which clips integer columns into
    the range of a target dtype and casts them to it.

    The Python code is embedded shallowly.  Exceptions are values of [exn]
    carried by [result]; the dataset objects a caller shares with a generator
    live in a store of objects addressed by references, so that mutation in
    place and deep copies can be told apart. *)

From stdpp Require Import base option list gmap strings.
From Stdlib Require Import ZArith Lia.

Local Open Scope Z_scope.

(** ** Exceptions and results *)

(** The Python exceptions the code can meet.  [DanglingReference] is not a
    Python exception: a Python name always denotes a live object, and the
    constructor only makes reading the store a total function. *)
Inductive exn : Set :=
  | AttributeError
  | KeyError
  | ValueError
  | DanglingReference.

Inductive result (A : Type) : Type :=
  | Ok (a : A)
  | Raise (e : exn).
Arguments Ok {A} a.
Arguments Raise {A} e.

Definition is_Raise {A} (r : result A) : Prop :=
  match r with Ok _ => False | Raise _ => True end.

Definition result_bind {A B} (r : result A) (k : A -> result B) : result B :=
  match r with
  | Ok a => k a
  | Raise e => Raise e
  end.

#[global] Instance exn_eq_dec : EqDecision exn.
Proof. solve_decision. Defined.

(** ** Labels, categoricals, series and data frames *)

(** A category label: a string before the relabelling, an integer after. *)
Inductive label : Set :=
  | LStr (s : string)
  | LInt (z : Z).

#[global] Instance label_eq_dec : EqDecision label.
Proof. solve_decision. Defined.

#[global] Instance label_countable : Countable label.
Proof.
  refine (inj_countable'
            (fun l => match l with LStr s => inl s | LInt z => inr z end)
            (fun x => match x with inl s => LStr s | inr z => LInt z end) _).
  intros []; reflexivity.
Defined.

(** A pandas [Categorical]: the categories in the order the encoding
    enumerates them ([.cat.categories]), and per row the position of the
    row's category in that enumeration, [-1] for a missing value. *)
Record Categorical : Type := mkCategorical {
  categories : list label;
  codes : list Z
}.

(** The invariant pandas keeps for every [Categorical]. *)
Definition Categorical_wf (c : Categorical) : Prop :=
  NoDup (categories c) /\
  Forall (fun i => -1 <= i < Z.of_nat (length (categories c))) (codes c).

(** The value of one row, [None] for a missing value. *)
Definition code_value (cats : list label) (i : Z) : option label :=
  if i <? 0 then None else cats !! Z.to_nat i.

(** The column as its rows show it. *)
Definition cat_values (c : Categorical) : list (option label) :=
  code_value (categories c) <$> codes c.

(** The numpy dtypes told apart here: the integer dtypes, the float dtypes,
    the complex dtypes (inexact, with float components), and two dtypes
    that are neither integer nor inexact. *)
Inductive np_dtype : Set :=
  | int8 | int16 | int32 | int64
  | uint8 | uint16 | uint32 | uint64
  | float16 | float32 | float64
  | complex64 | complex128
  | bool_ | object_.

#[global] Instance np_dtype_eq_dec : EqDecision np_dtype.
Proof. solve_decision. Defined.

(** A column of integer semantic type: its storage dtype and its rows. *)
Record IntSeries : Type := mkIntSeries {
  series_dtype : np_dtype;
  series_values : list Z
}.

Inductive Series : Type :=
  | SCat (c : Categorical)
  | SInt (s : IntSeries).

(** A data frame over columns of type [S]: the row labels and the named
    columns, in column order. *)
Record DataFrame (S : Type) : Type := mkDataFrame {
  index : list Z;
  columns : list (string * S)
}.
Arguments mkDataFrame {S} index columns.
Arguments index {S} d.
Arguments columns {S} d.

(** [for column in X]: the column labels in order. *)
Definition column_names {S} (X : DataFrame S) : list string :=
  fst <$> columns X.

(** ** Python dicts that are iterated: insertion-ordered association lists *)

Abbreviation dict V := (list (string * V)).

Section Dict.
Context {V : Type}.

(** [d[k]] and [k in d] *)
Fixpoint dict_get (d : dict V) (k : string) : option V :=
  match d with
  | [] => None
  | (k', v) :: d' => if decide (k' = k) then Some v else dict_get d' k
  end.

(** [d[k] = v]: an existing key keeps its place *)
Fixpoint dict_set (d : dict V) (k : string) (v : V) : dict V :=
  match d with
  | [] => [(k, v)]
  | (k', v') :: d' =>
      if decide (k' = k) then (k, v) :: d' else (k', v') :: dict_set d' k v
  end.

(** [for k in d] *)
Definition dict_keys (d : dict V) : list string := fst <$> d.

(** [bool(d)] *)
Definition dict_truthy (d : dict V) : bool :=
  match d with [] => false | _ :: _ => true end.
End Dict.

(** The per-column category maps: column name to (old label to new code). *)
Abbreviation CategoryMaps := (dict (gmap label Z)).

(** ** Feature metadata (the part of the framework the generators read) *)

Record FeatureMetadata : Type := mkFeatureMetadata {
  type_group_map_special : dict (list string)
}.

(** ** The store of dataset objects *)

(** A reference to a dataset object, and the store: the object a reference
    [r] denotes is the [r]-th element.  The objects of a store share no
    column data: a frame that shares a categorical with another frame, as a
    shallow copy does, is not expressed, so nothing here speaks about what a
    mutation in place does to such a frame. *)
Abbreviation ref := nat.
Abbreviation store := (list (DataFrame Series)).

(** ** [pandas] operations the category generator calls *)

(** [X[column].cat]: [X[column]] raises [KeyError] when no column has the
    label, and is itself a frame when several have it; [.cat] raises
    [AttributeError] on a frame and on a series that is not categorical. *)
Definition column_cat (X : DataFrame Series) (column : string)
  : result Categorical :=
  match filter (fun p => p.1 = column) (columns X) with
  | [] => Raise KeyError
  | [(_, SCat c)] => Ok c
  | [(_, SInt _)] => Raise AttributeError
  | _ :: _ :: _ => Raise AttributeError
  end.

(** The frame after the categorical of column [column] was mutated to [c]. *)
Definition set_column_cat (X : DataFrame Series) (column : string)
    (c : Categorical) : DataFrame Series :=
  mkDataFrame (index X)
    ((fun p => if decide (p.1 = column) then (p.1, SCat c) else p)
       <$> columns X).

(** [new_categories.get(item, item)] for a dict of integer codes *)
Definition renamed (new_categories : gmap label Z) (item : label) : label :=
  match new_categories !! item with
  | Some new_code => LInt new_code
  | None => item
  end.

(** [Categorical.rename_categories] with a dict-like argument: every category
    is looked up in the dict and kept when absent; the new categories must be
    unique, else [ValueError].  The codes are not touched. *)
Definition rename_categories (new_categories : gmap label Z)
    (c : Categorical) : result Categorical :=
  let cats := renamed new_categories <$> categories c in
  if decide (NoDup cats)
  then Ok (mkCategorical cats (codes c))
  else Raise ValueError.

(** [list(range(n))] *)
Definition range (n : nat) : list Z := Z.of_nat <$> seq 0 n.

(** [{k: v for k, v in pairs}]: a later pair overrides an earlier one. *)
Definition dict_comprehension (pairs : list (label * Z)) : gmap label Z :=
  foldl (fun m kv => <[kv.1 := kv.2]> m) ∅ pairs.

(** ** CategoryMemoryMinimizeFeatureGenerator *)

Module CategoryMemoryMinimizeFeatureGenerator.

(** The attributes of an instance.  [_category_maps] is [None] while the
    attribute does not exist: only [_fit_transform] assigns it.
    [feature_metadata_in] belongs to the framework's base class, which sets
    it before it calls the hooks below. *)
Record t : Type := mk {
  inplace : bool;
  _category_maps : option CategoryMaps;
  feature_metadata_in : FeatureMetadata
}.

(** [CategoryMemoryMinimizeFeatureGenerator(inplace=False, **kwargs)] *)
Definition __init__ (inplace : bool) (feature_metadata_in : FeatureMetadata)
  : t :=
  mk inplace None feature_metadata_in.

Definition default_inplace : bool := false.

(** The state a method runs in: the instance and the store of datasets.
    A method that raises keeps the mutations it made before. *)
Record state : Type := mkState {
  self : t;
  heap : store
}.

Definition M (A : Type) : Type := state -> result A * state.

#[global] Instance M_ret : MRet M := fun A a s => (Ok a, s).
#[global] Instance M_bind : MBind M := fun A B k m s =>
  match m s with
  | (Ok a, s') => k a s'
  | (Raise e, s') => (Raise e, s')
  end.

Definition lift {A} (r : result A) : M A := fun s => (r, s).

(** [self._category_maps] *)
Definition get_category_maps : M CategoryMaps := fun s =>
  match _category_maps (self s) with
  | Some maps => (Ok maps, s)
  | None => (Raise AttributeError, s)
  end.

(** [self._category_maps = maps] *)
Definition set_category_maps (maps : CategoryMaps) : M unit := fun s =>
  (Ok tt,
   mkState (mk (inplace (self s)) (Some maps) (feature_metadata_in (self s)))
           (heap s)).

(** [self.feature_metadata_in.type_group_map_special] *)
Definition get_type_group_map_special : M (dict (list string)) := fun s =>
  (Ok (type_group_map_special (feature_metadata_in (self s))), s).

(** [self.inplace] *)
Definition get_inplace : M bool := fun s => (Ok (inplace (self s)), s).

(** the object a reference denotes *)
Definition deref (X : ref) : M (DataFrame Series) := fun s =>
  match heap s !! X with
  | Some df => (Ok df, s)
  | None => (Raise DanglingReference, s)
  end.

(** mutation of the object a reference denotes *)
Definition assign (X : ref) (df : DataFrame Series) : M unit := fun s =>
  (Ok tt, mkState (self s) (<[X := df]> (heap s))).

(** a new object with content [df] *)
Definition alloc (df : DataFrame Series) : M ref := fun s =>
  (Ok (length (heap s)), mkState (self s) (heap s ++ [df])).

(** [X.copy(deep=True)]: a new object with the same content *)
Definition copy_deep (X : ref) : M ref :=
  df ← deref X;
  alloc df.

Fixpoint for_each {A} (l : list A) (body : A -> M unit) : M unit :=
  match l with
  | [] => mret tt
  | x :: l' => body x ;; for_each l' body
  end.

(** The loop of [_get_category_map] over the column labels still to visit. *)
Fixpoint get_category_map_loop (X : DataFrame Series) (todo : list string)
    (category_maps : CategoryMaps) : result CategoryMaps :=
  match todo with
  | [] => Ok category_maps
  | column :: todo' =>
      result_bind (column_cat X column) (fun c =>
        let old_categories := categories c in
        let new_categories := range (length old_categories) in
        get_category_map_loop X todo'
          (dict_set category_maps column
             (dict_comprehension (zip old_categories new_categories))))
  end.

Definition _get_category_map (X : ref) : M CategoryMaps :=
  df ← deref X;
  lift (get_category_map_loop df (column_names df) []).

(** [X[column].cat.rename_categories(new_categories, inplace=True)]:
    the categorical inside the frame object is mutated. *)
Definition rename_categories_inplace (X : ref) (column : string)
    (maps : CategoryMaps) : M unit :=
  df ← deref X;
  c ← lift (column_cat df column);
  new_categories ← lift (match dict_get maps column with
                         | Some m => Ok m
                         | None => Raise KeyError
                         end);
  c' ← lift (rename_categories new_categories c);
  assign X (set_column_cat df column c').

Definition _minimize_categorical_memory_usage (X : ref) : M ref :=
  maps ← get_category_maps;
  if dict_truthy maps then
    inpl ← get_inplace;
    X ← (if negb inpl then copy_deep X else mret X);
    for_each (dict_keys maps)
      (fun column => rename_categories_inplace X column maps);;
    mret X
  else mret X.

Definition _transform (X : ref) : M ref :=
  _minimize_categorical_memory_usage X.

Definition _fit_transform (X : ref) : M (ref * dict (list string)) :=
  maps ← _get_category_map X;
  set_category_maps maps;;
  X_out ← _transform X;
  special ← get_type_group_map_special;
  mret (X_out, special).

End CategoryMemoryMinimizeFeatureGenerator.

(** ** [numpy] operations the numeric generator calls *)

(** What [np.iinfo] and [np.finfo] report: the dtype described and its
    smallest and largest value.  The largest finite value of a binary float
    is an integer, so [Z] holds the bounds of every dtype exactly. *)
Record type_info : Type := mkTypeInfo {
  info_dtype : np_dtype;
  info_min : Z;
  info_max : Z
}.

(** Signedness and width in bits of the integer dtypes. *)
Definition integer_format (d : np_dtype) : option (bool * Z) :=
  match d with
  | int8 => Some (true, 8) | int16 => Some (true, 16)
  | int32 => Some (true, 32) | int64 => Some (true, 64)
  | uint8 => Some (false, 8) | uint16 => Some (false, 16)
  | uint32 => Some (false, 32) | uint64 => Some (false, 64)
  | _ => None
  end.

(** The float dtype behind an inexact dtype (a complex dtype has float
    components), its precision in bits and its largest exponent. *)
Definition float_format (d : np_dtype) : option (np_dtype * Z * Z) :=
  match d with
  | float16 => Some (float16, 11, 15)
  | float32 | complex64 => Some (float32, 24, 127)
  | float64 | complex128 => Some (float64, 53, 1023)
  | _ => None
  end.

(** The largest finite float of precision [p] and largest exponent [emax]. *)
Definition float_max (p emax : Z) : Z := (2 ^ p - 1) * 2 ^ (emax - p + 1).

(** [np.iinfo(dtype)]: [ValueError] unless the dtype is an integer dtype. *)
Definition iinfo (d : np_dtype) : result type_info :=
  match integer_format d with
  | Some (true, w) => Ok (mkTypeInfo d (- 2 ^ (w - 1)) (2 ^ (w - 1) - 1))
  | Some (false, w) => Ok (mkTypeInfo d 0 (2 ^ w - 1))
  | None => Raise ValueError
  end.

(** [np.finfo(dtype)]: [ValueError] unless the dtype is inexact. *)
Definition finfo (d : np_dtype) : result type_info :=
  match float_format d with
  | Some (fd, p, emax) =>
      Ok (mkTypeInfo fd (- float_max p emax) (float_max p emax))
  | None => Raise ValueError
  end.

(** [np.clip(v, clip_min, clip_max)], that is
    [minimum(maximum(v, clip_min), clip_max)]. *)
Definition clip (clip_min clip_max v : Z) : Z :=
  Z.min clip_max (Z.max clip_min v).

(** The cast of an integer to an integer dtype of [w] bits wraps around. *)
Definition wrap_unsigned (w v : Z) : Z := v mod 2 ^ w.
Definition wrap_signed (w v : Z) : Z :=
  (v + 2 ^ (w - 1)) mod 2 ^ w - 2 ^ (w - 1).

(** The cast of an integer to a binary float of precision [p]: rounding to
    the nearest number with [p] significant bits, ties to the even one, the
    exponent taken as unbounded.  The IEEE cast is infinite exactly when the
    magnitude of this rounding exceeds the largest finite value. *)
Definition round_to_precision (p v : Z) : Z :=
  let a := Z.abs v in
  let e := Z.log2 a + 1 - p in
  if e <=? 0 then v
  else
    let q := a / 2 ^ e in
    let r := a mod 2 ^ e in
    let half := 2 ^ (e - 1) in
    let q' := if r <? half then q
              else if half <? r then q + 1
              else if Z.even q then q else q + 1 in
    Z.sgn v * (q' * 2 ^ e).

(** [.astype(dtype)] on an integer value. *)
Definition astype (d : np_dtype) (v : Z) : Z :=
  match integer_format d, float_format d with
  | Some (true, w), _ => wrap_signed w v
  | Some (false, w), _ => wrap_unsigned w v
  | None, Some (_, p, _) => round_to_precision p v
  | None, None =>
      match d with
      | bool_ => if v =? 0 then 0 else 1
      | _ => v
      end
  end.

(** Modelled from the spec: [clip_and_astype] of the package's [utils]
    module, which is not among the sources.  Every value of every column is
    clamped into [[clip_min, clip_max]] (a saturating clip) and the column is
    then cast to the target dtype; index and columns keep their order. *)
Definition clip_and_astype (df : DataFrame IntSeries)
    (clip_min clip_max : Z) (dtype : np_dtype) : DataFrame IntSeries :=
  mkDataFrame (index df)
    ((fun p => (p.1, mkIntSeries dtype
                       ((fun v => astype dtype (clip clip_min clip_max v))
                          <$> series_values p.2)))
       <$> columns df).

(** ** NumericMemoryMinimizeFeatureGenerator *)

Module NumericMemoryMinimizeFeatureGenerator.

(** The attributes of an instance; [feature_metadata_in] belongs to the
    framework's base class, which sets it before it calls the hooks. *)
Record t : Type := mk {
  dtype_out : np_dtype;
  _clip_min : Z;
  _clip_max : Z;
  feature_metadata_in : FeatureMetadata
}.

Definition default_dtype_out : np_dtype := uint8.

(** [try: np.iinfo(dtype) except ValueError: np.finfo(dtype)]: only a
    [ValueError] of [np.iinfo] is caught. *)
Definition _get_dtype_clip_args (dtype : np_dtype)
  : result (np_dtype * Z * Z) :=
  result_bind
    (match iinfo dtype with
     | Ok dtype_info => Ok dtype_info
     | Raise ValueError => finfo dtype
     | Raise e => Raise e
     end)
    (fun dtype_info =>
       Ok (info_dtype dtype_info, info_min dtype_info, info_max dtype_info)).

(** [NumericMemoryMinimizeFeatureGenerator(dtype_out=np.uint8, **kwargs)] *)
Definition __init__ (dtype_out : np_dtype)
    (feature_metadata_in : FeatureMetadata) : result t :=
  result_bind (_get_dtype_clip_args dtype_out) (fun args =>
    match args with
    | (dtype_out, _clip_min, _clip_max) =>
        Ok (mk dtype_out _clip_min _clip_max feature_metadata_in)
    end).

Definition _minimize_numeric_memory_usage (self : t)
    (X : DataFrame IntSeries) : DataFrame IntSeries :=
  clip_and_astype X (_clip_min self) (_clip_max self) (dtype_out self).

Definition _transform (self : t) (X : DataFrame IntSeries)
  : DataFrame IntSeries :=
  _minimize_numeric_memory_usage self X.

Definition _fit_transform (self : t) (X : DataFrame IntSeries)
  : DataFrame IntSeries * dict (list string) :=
  let X_out := _transform self X in
  (X_out, type_group_map_special (feature_metadata_in self)).

End NumericMemoryMinimizeFeatureGenerator.

Module Cat := CategoryMemoryMinimizeFeatureGenerator.
Module Num := NumericMemoryMinimizeFeatureGenerator.

(** ** The entry points of both generators, and when a call raises *)

Inductive call : Type :=
  | NumericInit (dtype_out : np_dtype) (fm : FeatureMetadata)
  | NumericTransform (self : Num.t) (X : DataFrame IntSeries)
  | NumericFitTransform (self : Num.t) (X : DataFrame IntSeries)
  | CategoryInit (inplace : bool) (fm : FeatureMetadata)
  | CategoryTransform (self : Cat.t) (h : store) (X : ref)
  | CategoryFitTransform (self : Cat.t) (h : store) (X : ref).

(** When a call raises.  The category constructor only stores its arguments;
    the numeric hooks are the clip and cast of [clip_and_astype], specified
    as a transform of the data without an exceptional outcome. *)
Definition fails (c : call) : Prop :=
  match c with
  | NumericInit d fm => is_Raise (Num.__init__ d fm)
  | NumericTransform _ _ | NumericFitTransform _ _ | CategoryInit _ _ => False
  | CategoryTransform g h X => is_Raise (Cat._transform X (Cat.mkState g h)).1
  | CategoryFitTransform g h X =>
      is_Raise (Cat._fit_transform X (Cat.mkState g h)).1
  end.

(** ** Notions the properties are stated with *)

(** [m] gives every label the position at which [cats] enumerates it. *)
Definition enumerates (m : gmap label Z) (cats : list label) : Prop :=
  forall l i, m !! l = Some i <-> 0 <= i /\ cats !! Z.to_nat i = Some l.

(** [m] is defined on the labels [cats], one-to-one, and onto [0 .. k-1]. *)
Definition one_to_one_onto (m : gmap label Z) (cats : list label) : Prop :=
  (forall l, is_Some (m !! l) <-> l ∈ cats) /\
  (forall l l' i, m !! l = Some i -> m !! l' = Some i -> l = l') /\
  (forall i, (exists l, m !! l = Some i) <-> 0 <= i < Z.of_nat (length cats)).

(** The map [_get_category_map] builds for a column with categories [cats]. *)
Definition fitted_map (cats : list label) : gmap label Z :=
  dict_comprehension (zip cats (range (length cats))).

(** A series after its categories went through the dict [m]. *)
Definition relabel_series (m : gmap label Z) (s : Series) : Series :=
  match s with
  | SCat c => SCat (mkCategorical (renamed m <$> categories c) (codes c))
  | SInt x => SInt x
  end.

(** A column after the columns named in [ks] were relabelled by their maps. *)
Definition relabel_in (maps : CategoryMaps) (ks : list string)
    (p : string * Series) : string * Series :=
  if decide (p.1 ∈ ks) then
    match dict_get maps p.1 with
    | Some m => (p.1, relabel_series m p.2)
    | None => p
    end
  else p.

Definition relabel_frame (maps : CategoryMaps) (df : DataFrame Series)
  : DataFrame Series :=
  mkDataFrame (index df) (relabel_in maps (dict_keys maps) <$> columns df).

(** The rows of a series, in row order: the codes of a categorical. *)
Definition row_codes (s : Series) : list Z :=
  match s with
  | SCat c => codes c
  | SInt x => series_values x
  end.

(** The columns of a frame in column order, each with its rows in row order. *)
Definition frame_rows (df : DataFrame Series) : list (string * list Z) :=
  (fun p => (p.1, row_codes p.2)) <$> columns df.

(** The frames the category generator is meant for: distinct column labels,
    every column a categorical that satisfies the invariant of pandas. *)
Definition Series_wf (s : Series) : Prop :=
  match s with
  | SCat c => Categorical_wf c
  | SInt _ => False
  end.

Definition Frame_wf (df : DataFrame Series) : Prop :=
  NoDup (column_names df) /\ Forall (fun p => Series_wf p.2) (columns df).

#[global] Instance Categorical_wf_dec c : Decision (Categorical_wf c).
Proof. unfold Categorical_wf. apply _. Defined.

#[global] Instance Series_wf_dec s : Decision (Series_wf s).
Proof. destruct s; simpl; apply _. Defined.

#[global] Instance Frame_wf_dec df : Decision (Frame_wf df).
Proof. unfold Frame_wf. apply _. Defined.

(** A categorical whose [k] categories were replaced by [0 .. k-1]. *)
Definition minimized (c : Categorical) : Categorical :=
  mkCategorical (LInt <$> range (length (categories c))) (codes c).

Definition minimized_series (s : Series) : Series :=
  match s with
  | SCat c => SCat (minimized c)
  | SInt x => SInt x
  end.

Definition minimized_frame (df : DataFrame Series) : DataFrame Series :=
  mkDataFrame (index df) ((fun p => (p.1, minimized_series p.2)) <$> columns df).

(** The body of the loop of [_minimize_categorical_memory_usage]. *)
Abbreviation rename_body X maps :=
  (fun column => Cat.rename_categories_inplace X column maps).

(** The outcome of a method that ends in [return X] after a loop. *)
Definition finish {A} (X : A) (out : result unit * Cat.state)
  : result A * Cat.state :=
  match out with
  | (Ok _, s') => (Ok X, s')
  | (Raise e, s') => (Raise e, s')
  end.

(** The finite floats of integer value of a binary format. *)
Definition is_finite_float (p emax x : Z) : Prop :=
  exists m e, 0 <= m < 2 ^ p /\ 0 <= e <= emax - p + 1 /\ Z.abs x = m * 2 ^ e.

(** What a generator built by [__init__] holds. *)
Inductive built : Num.t -> Prop :=
  | built_int d s w fm lo hi :
      integer_format d = Some (s, w) ->
      iinfo d = Ok (mkTypeInfo d lo hi) ->
      built (Num.mk d lo hi fm)
  | built_float fd p emax fm :
      integer_format fd = None ->
      float_format fd = Some (fd, p, emax) ->
      built (Num.mk fd (- float_max p emax) (float_max p emax) fm).

(** ** Data of the examples *)

Definition red : label := LStr "red".
Definition blue : label := LStr "blue".
Definition green : label := LStr "green".

(** The column [red, blue, red, green], its categories enumerated in the
    order of first occurrence. *)
Definition c1 : Categorical := mkCategorical [red; blue; green] [0; 1; 0; 2].

(** The same column, its categories enumerated in sorted order. *)
Definition c2 : Categorical := mkCategorical [blue; green; red] [2; 0; 2; 1].

(** The rows [red, green] of a column that knows the categories
    [red, blue, green]: [blue] does not occur. *)
Definition c3 : Categorical := mkCategorical [red; blue; green] [0; 2].

(** The frame whose only column, ["color"], is [c]. *)
Definition frame_of (c : Categorical) : DataFrame Series :=
  mkDataFrame (range (length (codes c))) [("color"%string, SCat c)].

Definition fm0 : FeatureMetadata := mkFeatureMetadata [].
Definition g0 : Cat.t := Cat.__init__ Cat.default_inplace fm0.
Definition g_uint8 : Num.t := Num.mk uint8 0 255 fm0.

(** The maps fitted on [frame_of c1]. *)
Definition maps1 : CategoryMaps :=
  [("color"%string, fitted_map (categories c1))].

Definition X_example : DataFrame IntSeries :=
  mkDataFrame [0; 1; 2; 3; 4]
    [("x"%string, mkIntSeries int64 [-5; 0; 130; 255; 300])].

(** ** Further notions *)

Definition is_categorical (s : Series) : Prop :=
  match s with SCat _ => True | SInt _ => False end.

#[global] Instance is_categorical_dec s : Decision (is_categorical s).
Proof. destruct s; simpl; apply _. Defined.

(** The frames [_get_category_map] accepts: distinct column labels, every
    column categorical. *)
Definition all_categorical (df : DataFrame Series) : Prop :=
  NoDup (column_names df) /\ Forall (fun p => is_categorical p.2) (columns df).

(** What a map does to one label, said without the code: a label the map
    knows is sent to its code, a label it does not know to itself. *)
Definition sends (m : gmap label Z) (l l' : label) : Prop :=
  (forall i, m !! l = Some i -> l' = LInt i) /\
  (m !! l = None -> l' = l).




(** The categories of [c] sent through [m] are distinct, or collide. *)
Definition renames_apart (m : gmap label Z) (c : Categorical) : Prop :=
  exists cats', Forall2 (sends m) (categories c) cats' /\ NoDup cats'.

Definition renames_collide (m : gmap label Z) (c : Categorical) : Prop :=
  exists cats', Forall2 (sends m) (categories c) cats' /\ ~ NoDup cats'.

(** What stops the loop of [_minimize_categorical_memory_usage] at key [k]
    of a frame, and with which exception: no column of that label, a column
    that is not one categorical, or categories that collide once renamed. *)
Definition stops_at (maps : CategoryMaps) (df : DataFrame Series)
    (k : string) (e : exn) : Prop :=
  ((k ∉ column_names df) /\ e = KeyError) \/
  ((k ∈ column_names df) /\ (forall c, column_cat df k <> Ok c) /\
   e = AttributeError) \/
  (exists c m, column_cat df k = Ok c /\ dict_get maps k = Some m /\
     renames_collide m c /\ e = ValueError).

Definition is_string_label (l : label) : Prop :=
  match l with LStr _ => True | LInt _ => False end.

(** Every category of every categorical column is a string. *)
Definition string_labels (df : DataFrame Series) : Prop :=
  Forall (fun p => match p.2 with
                   | SCat c => Forall is_string_label (categories c)
                   | SInt _ => True
                   end) (columns df).

#[global] Instance is_string_label_dec l : Decision (is_string_label l).
Proof. destruct l; simpl; apply _. Defined.

#[global] Instance string_labels_dec df : Decision (string_labels df).
Proof.
  unfold string_labels. apply Forall_dec. intros [n [c|x]]; simpl; apply _.
Defined.

(** The stored map read backwards: from code to label. *)
Definition inverse_map (m : gmap label Z) : gmap Z label :=
  list_to_map ((fun p => (p.2, p.1)) <$> map_to_list m).

(** The label a transformed row stood for, [None] for a missing value and
    for a value that is not a code of the map. *)
Definition decode (m : gmap label Z) (v : option label) : option label :=
  match v with
  | Some (LInt i) => inverse_map m !! i
  | _ => None
  end.

(** ** Further data of the examples *)

(** A column whose categories are the integers [1] and [0], in this order. *)
Definition c_ints : Categorical := mkCategorical [LInt 1; LInt 0] [0; 1].

(** A frame with a categorical and an integer column. *)
Definition frame_mixed : DataFrame Series :=
  mkDataFrame [0; 1]
    [("color"%string, SCat c3);
     ("size"%string, SInt (mkIntSeries int64 [3; 5]))].

(** A frame with rows and no column. *)
Definition frame_no_columns : DataFrame Series := mkDataFrame [0; 1] [].

(** Maps for two columns, ["color"] and ["size"]. *)
Definition maps2 : CategoryMaps :=
  [("color"%string, fitted_map (categories c1));
   ("size"%string, fitted_map [LStr "S"; LStr "L"])].

(** The state [_fit_transform] leaves on the example column. *)
Definition st_fit1 : Cat.state :=
  (Cat._fit_transform 0%nat (Cat.mkState g0 [frame_of c1])).2.

Definition g_int16 : Num.t := Num.mk int16 (-32768) 32767 fm0.
Definition g_float32 : Num.t :=
  Num.mk float32 (- float_max 24 127) (float_max 24 127) fm0.

(** * Properties of the category generator *)

(** ** Dicts *)

Section DictFacts.
Context {V : Type}.
Implicit Types (d : dict V) (k : string) (v : V).

Lemma dict_get_set_eq d k v : dict_get (dict_set d k v) k = Some v.
Proof.
  induction d as [|[k' v'] d IH]; simpl.
  - by rewrite decide_True.
  - destruct (decide (k' = k)) as [->|Hne]; simpl.
    + by rewrite decide_True.
    + by rewrite decide_False.
Qed.

Lemma dict_get_set_ne d k k' v :
  k <> k' -> dict_get (dict_set d k v) k' = dict_get d k'.
Proof.
  intros Hne. induction d as [|[k0 v0] d IH]; simpl.
  - by rewrite decide_False.
  - destruct (decide (k0 = k)) as [->|Hne0]; simpl.
    + by rewrite !decide_False.
    + by rewrite IH.
Qed.

(** Assigning a key keeps the keys distinct and appends a new key last. *)
Lemma dict_keys_set d k v :
  dict_keys (dict_set d k v) =
  if decide (k ∈ dict_keys d) then dict_keys d else dict_keys d ++ [k].
Proof.
  induction d as [|[k0 v0] d IH].
  - destruct (decide (k ∈ dict_keys [])) as [Hin|Hnin]; [|done].
    by apply elem_of_nil in Hin.
  - cbn [dict_set]. destruct (decide (k0 = k)) as [->|Hne].
    + destruct (decide (k ∈ dict_keys ((k, v0) :: d))) as [Hin|Hnin]; [done|].
      exfalso. apply Hnin. apply list_elem_of_here.
    + change (dict_keys ((k0, v0) :: dict_set d k v))
        with (k0 :: dict_keys (dict_set d k v)).
      change (dict_keys ((k0, v0) :: d)) with (k0 :: dict_keys d).
      rewrite IH.
      destruct (decide (k ∈ dict_keys d)) as [Hin|Hnin];
        destruct (decide (k ∈ k0 :: dict_keys d)) as [Hin'|Hnin']; try done.
      * exfalso. apply Hnin'. by apply list_elem_of_further.
      * apply elem_of_cons in Hin' as [?|?]; [congruence|done].
Qed.
End DictFacts.

Lemma dict_comprehension_list_to_map pairs :
  dict_comprehension pairs = list_to_map (reverse pairs).
Proof.
  unfold dict_comprehension.
  assert (forall acc : gmap label Z,
    foldl (fun m kv => <[kv.1 := kv.2]> m) acc pairs
    = list_to_map (reverse pairs) ∪ acc) as H.
  { induction pairs as [|[k v] ps IH]; intros acc; simpl.
    - by rewrite (left_id_L ∅ (∪)).
    - rewrite IH, reverse_cons, list_to_map_app. simpl.
      rewrite insert_empty, <-(assoc_L (∪)).
      by rewrite <-insert_union_singleton_l. }
  rewrite H. by rewrite (right_id_L ∅ (∪)).
Qed.

Lemma range_lookup_nat n (j : nat) : (j < n)%nat -> range n !! j = Some (Z.of_nat j).
Proof.
  intros H. unfold range. rewrite list_lookup_fmap, lookup_seq_lt; done.
Qed.

Lemma length_range n : length (range n) = n.
Proof. unfold range. by rewrite length_fmap, length_seq. Qed.

Lemma fitted_map_enumerates cats : NoDup cats -> enumerates (fitted_map cats) cats.
Proof.
  intros Hnd l i. unfold fitted_map.
  rewrite dict_comprehension_list_to_map.
  rewrite <-elem_of_list_to_map.
  2:{ rewrite fmap_reverse, fst_zip; [by rewrite reverse_Permutation|].
      by rewrite length_range. }
  rewrite elem_of_reverse, list_elem_of_lookup.
  split.
  - intros [j Hj]. apply lookup_zip_with_Some in Hj as (x & y & [= <- <-] & Hx & Hy).
    assert (j < length cats)%nat as Hlt by (by eapply lookup_lt_Some).
    rewrite range_lookup_nat in Hy by done. injection Hy as <-.
    split; [lia|]. by rewrite Nat2Z.id.
  - intros [Hi Hl]. exists (Z.to_nat i).
    apply lookup_zip_with_Some. exists l, i. split; [done|]. split; [done|].
    rewrite range_lookup_nat by (by eapply lookup_lt_Some).
    f_equal. lia.
Qed.

(** ** Facts on [column_cat] and [set_column_cat] *)

Lemma column_cat_Ok_filter df k c :
  column_cat df k = Ok c <->
  filter (fun p => p.1 = k) (columns df) = [(k, SCat c)].
Proof.
  unfold column_cat.
  destruct (filter (fun p => p.1 = k) (columns df)) as [|[n s] [|q l]] eqn:E.
  - split; intros; discriminate.
  - assert (n = k) as ->.
    { assert ((n, s) ∈ filter (fun p => p.1 = k) (columns df)) as Hin
        by (rewrite E; apply list_elem_of_here).
      by apply list_elem_of_filter in Hin as [? _]. }
    destruct s; split; intros; try discriminate; congruence.
  - destruct s; split; intros; discriminate.
Qed.

Lemma column_cat_Ok_elem df k c s :
  column_cat df k = Ok c -> (k, s) ∈ columns df -> s = SCat c.
Proof.
  intros H Hin. apply column_cat_Ok_filter in H.
  assert ((k, s) ∈ filter (fun p => p.1 = k) (columns df)) as Hf
    by (by apply list_elem_of_filter).
  rewrite H in Hf. apply list_elem_of_singleton in Hf. congruence.
Qed.

Lemma filter_name_absent (l : list (string * Series)) k :
  k ∉ l.*1 -> filter (fun p => p.1 = k) l = [].
Proof.
  induction l as [|[n x] l IH]; intros Hk; [done|].
  rewrite fmap_cons in Hk. apply not_elem_of_cons in Hk as [Hne Hk].
  rewrite filter_cons_False by (simpl; naive_solver). by apply IH.
Qed.

Lemma filter_name_NoDup (l : list (string * Series)) k s :
  NoDup l.*1 -> (k, s) ∈ l -> filter (fun p => p.1 = k) l = [(k, s)].
Proof.
  induction l as [|[n x] l IH]; intros Hnd Hin.
  - by apply elem_of_nil in Hin.
  - rewrite fmap_cons in Hnd. apply NoDup_cons in Hnd as [Hn Hnd].
    apply elem_of_cons in Hin as [[= -> ->]|Hin].
    + rewrite filter_cons_True by done. f_equal.
      by apply filter_name_absent.
    + rewrite filter_cons_False; [by apply IH|].
      simpl. intros ->. apply Hn.
      apply list_elem_of_fmap. by exists (k, s).
Qed.

Lemma column_cat_NoDup df k c :
  NoDup (column_names df) -> (k, SCat c) ∈ columns df -> column_cat df k = Ok c.
Proof.
  intros Hnd Hin. apply column_cat_Ok_filter. by apply filter_name_NoDup.
Qed.

Lemma filter_name_set_column (l : list (string * Series)) k k' c' :
  filter (fun p => p.1 = k')
    ((fun p => if decide (p.1 = k) then (p.1, SCat c') else p) <$> l)
  = (fun p => if decide (p.1 = k) then (p.1, SCat c') else p)
      <$> filter (fun p => p.1 = k') l.
Proof.
  induction l as [|[n x] l IH]; [done|].
  rewrite fmap_cons. simpl.
  destruct (decide (n = k')) as [->|Hne].
  - rewrite (filter_cons_True _ (k', x)) by done.
    rewrite fmap_cons, <-IH. simpl.
    destruct (decide (k' = k)); by rewrite filter_cons_True.
  - rewrite (filter_cons_False _ (n, x)) by done.
    rewrite <-IH. destruct (decide (n = k)); by rewrite filter_cons_False.
Qed.

Lemma column_cat_set_ne df k k' c' :
  k <> k' -> column_cat (set_column_cat df k c') k' = column_cat df k'.
Proof.
  intros Hne. unfold column_cat at 1 2. unfold set_column_cat. simpl.
  rewrite filter_name_set_column.
  assert (Forall (fun p => p.1 = k') (filter (fun p => p.1 = k') (columns df)))
    as Hall.
  { apply Forall_forall. intros p Hp. by apply list_elem_of_filter in Hp as [? _]. }
  destruct (filter (fun p => p.1 = k') (columns df)) as [|[n s] [|q l]]; [done|..].
  - apply Forall_cons in Hall as [Hn _]. simpl in *. subst n.
    by rewrite decide_False.
  - simpl. destruct (decide (n = k)), s; done.
Qed.

(** ** The relabelling a successful transform performs *)

Lemma rename_categories_inplace_eq X k maps s df :
  Cat.heap s !! X = Some df ->
  Cat.rename_categories_inplace X k maps s =
  match column_cat df k with
  | Raise e => (Raise e, s)
  | Ok c =>
      match dict_get maps k with
      | None => (Raise KeyError, s)
      | Some m =>
          match rename_categories m c with
          | Raise e => (Raise e, s)
          | Ok c' =>
              (Ok tt, Cat.mkState (Cat.self s)
                        (<[X := set_column_cat df k c']> (Cat.heap s)))
          end
      end
  end.
Proof.
  intros H. unfold Cat.rename_categories_inplace, mbind, Cat.M_bind, Cat.deref,
    Cat.lift, Cat.assign.
  rewrite H. destruct (column_cat df k); [|done].
  destruct (dict_get maps k); [|done].
  by destruct (rename_categories g a).
Qed.

Lemma rename_categories_Ok m c c' :
  rename_categories m c = Ok c' ->
  c' = mkCategorical (renamed m <$> categories c) (codes c) /\
  NoDup (renamed m <$> categories c).
Proof.
  unfold rename_categories. case_decide; [|done]. by intros [= <-].
Qed.

Lemma set_column_cat_rows df k c c' :
  column_cat df k = Ok c -> codes c' = codes c ->
  frame_rows (set_column_cat df k c') = frame_rows df.
Proof.
  intros Hc Hcodes. unfold frame_rows, set_column_cat. simpl.
  rewrite <-list_fmap_compose. apply Forall_fmap_ext, Forall_forall.
  intros [n s] Hin. simpl. destruct (decide (n = k)) as [->|]; [|done].
  simpl. rewrite (column_cat_Ok_elem _ _ _ _ Hc Hin). simpl. by rewrite Hcodes.
Qed.

(** Whatever its outcome, the loop touches no object but [X], and keeps the
    index, the column labels and the row codes of [X]. *)
Lemma for_each_rename_frame X maps ks s df r s' :
  Cat.heap s !! X = Some df ->
  Cat.for_each ks (rename_body X maps) s = (r, s') ->
  Cat.self s' = Cat.self s /\
  length (Cat.heap s') = length (Cat.heap s) /\
  (forall Y, Y <> X -> Cat.heap s' !! Y = Cat.heap s !! Y) /\
  exists df', Cat.heap s' !! X = Some df' /\
    index df' = index df /\ frame_rows df' = frame_rows df.
Proof.
  revert s df. induction ks as [|k ks IH]; intros s df Hdf Hrun.
  - injection Hrun as <- <-. eauto 10.
  - cbn [Cat.for_each] in Hrun. unfold mbind, Cat.M_bind in Hrun.
    rewrite (rename_categories_inplace_eq _ _ _ _ _ Hdf) in Hrun.
    destruct (column_cat df k) as [c|e] eqn:Hc;
      [|injection Hrun as <- <-; eauto 10].
    destruct (dict_get maps k) as [m|];
      [|injection Hrun as <- <-; eauto 10].
    destruct (rename_categories m c) as [c'|e] eqn:Hren;
      [|injection Hrun as <- <-; eauto 10].
    apply rename_categories_Ok in Hren as [-> _].
    assert (X < length (Cat.heap s))%nat as Hlt by (by eapply lookup_lt_Some).
    eapply IH in Hrun as (Hself & Hlen & Hother & df' & Hdf' & Hidx & Hrows);
      [|cbn [Cat.heap]; by apply list_lookup_insert_eq].
    cbn [Cat.heap Cat.self] in *. rewrite length_insert in Hlen.
    split; [done|]. split; [done|]. split.
    + intros Y HY. rewrite Hother by done. by apply list_lookup_insert_ne.
    + exists df'. split; [done|]. split; [done|].
      rewrite Hrows. by eapply set_column_cat_rows.
Qed.

Lemma relabel_in_nil maps (l : list (string * Series)) :
  relabel_in maps [] <$> l = l.
Proof.
  rewrite <-(list_fmap_id l) at 2. apply list_fmap_ext. intros i p _.
  unfold relabel_in. rewrite decide_False; [done|]. apply not_elem_of_nil.
Qed.

(** One step of the loop followed by the relabelling of the keys still to
    come is the relabelling of all of them. *)
Lemma relabel_in_step maps df k ks c m :
  k ∉ ks -> column_cat df k = Ok c -> dict_get maps k = Some m ->
  relabel_in maps ks <$> columns
    (set_column_cat df k (mkCategorical (renamed m <$> categories c) (codes c)))
  = relabel_in maps (k :: ks) <$> columns df.
Proof.
  intros Hk Hc Hm. unfold set_column_cat. cbn [columns].
  rewrite <-list_fmap_compose. apply Forall_fmap_ext, Forall_forall.
  intros [n s] Hin. unfold relabel_in, compose. cbn [fst snd].
  destruct (decide (n = k)) as [->|Hne].
  - cbn [fst snd]. rewrite decide_False by done.
    rewrite decide_True by apply list_elem_of_here.
    rewrite Hm. by rewrite (column_cat_Ok_elem _ _ _ _ Hc Hin).
  - cbn [fst snd]. destruct (decide (n ∈ ks)) as [Hn|Hn].
    + rewrite decide_True; [done|]. by apply list_elem_of_further.
    + rewrite decide_False; [done|].
      intros [?|?]%elem_of_cons; done.
Qed.

(** A loop that completes has relabelled exactly the columns it visited. *)
Lemma for_each_rename_Ok X maps ks s df s' :
  NoDup ks ->
  Cat.heap s !! X = Some df ->
  Cat.for_each ks (rename_body X maps) s = (Ok tt, s') ->
  s' = Cat.mkState (Cat.self s)
         (<[X := mkDataFrame (index df) (relabel_in maps ks <$> columns df)]>
            (Cat.heap s)).
Proof.
  revert s df. induction ks as [|k ks IH]; intros s df Hnd Hdf Hrun.
  - injection Hrun as <-. rewrite relabel_in_nil.
    destruct s as [g h], df as [idx cols]. cbn in *.
    by rewrite list_insert_id.
  - apply NoDup_cons in Hnd as [Hk Hnd].
    cbn [Cat.for_each] in Hrun. unfold mbind, Cat.M_bind in Hrun.
    rewrite (rename_categories_inplace_eq _ _ _ _ _ Hdf) in Hrun.
    destruct (column_cat df k) as [c|e] eqn:Hc; [|done].
    destruct (dict_get maps k) as [m|] eqn:Hm; [|done].
    destruct (rename_categories m c) as [c'|e] eqn:Hren; [|done].
    apply rename_categories_Ok in Hren as [-> _].
    assert (X < length (Cat.heap s))%nat as Hlt by (by eapply lookup_lt_Some).
    eapply IH in Hrun; [|done|cbn [Cat.heap]; by apply list_lookup_insert_eq].
    rewrite Hrun. cbn [Cat.heap Cat.self].
    rewrite list_insert_insert_eq. do 2 f_equal.
    rewrite relabel_in_step by done. done.
Qed.

(** The loop completes when every key names one categorical column, has a
    map, and the map keeps the categories of that column distinct. *)
Lemma for_each_rename_succeeds X maps ks s df :
  NoDup ks ->
  Cat.heap s !! X = Some df ->
  (forall k, k ∈ ks -> exists c m,
      column_cat df k = Ok c /\ dict_get maps k = Some m /\
      NoDup (renamed m <$> categories c)) ->
  exists s', Cat.for_each ks (rename_body X maps) s = (Ok tt, s').
Proof.
  revert s df. induction ks as [|k ks IH]; intros s df Hnd Hdf Hpre.
  - by eexists.
  - apply NoDup_cons in Hnd as [Hk Hnd].
    cbn [Cat.for_each]. unfold mbind, Cat.M_bind.
    rewrite (rename_categories_inplace_eq _ _ _ _ _ Hdf).
    destruct (Hpre k) as (c & m & -> & -> & Hcats); [apply list_elem_of_here|].
    unfold rename_categories. rewrite decide_True by done.
    assert (X < length (Cat.heap s))%nat as Hlt by (by eapply lookup_lt_Some).
    eapply IH; [done|cbn [Cat.heap]; by apply list_lookup_insert_eq|].
    intros k' Hk'. destruct (Hpre k') as (c0 & m0 & ? & ? & ?);
      [by apply list_elem_of_further|].
    exists c0, m0. split; [|done].
    rewrite column_cat_set_ne; [done|]. intros ->. done.
Qed.

(** ** The control flow of [_transform] and [_fit_transform] *)

Lemma _transform_eq X g h :
  Cat._transform X (Cat.mkState g h) =
  match Cat._category_maps g with
  | None => (Raise AttributeError, Cat.mkState g h)
  | Some maps =>
      if dict_truthy maps then
        if Cat.inplace g then
          finish X (Cat.for_each (dict_keys maps) (rename_body X maps)
                      (Cat.mkState g h))
        else
          match h !! X with
          | None => (Raise DanglingReference, Cat.mkState g h)
          | Some df =>
              finish (length h)
                (Cat.for_each (dict_keys maps) (rename_body (length h) maps)
                   (Cat.mkState g (h ++ [df])))
          end
      else (Ok X, Cat.mkState g h)
  end.
Proof.
  unfold Cat._transform, Cat._minimize_categorical_memory_usage.
  unfold mbind, Cat.M_bind, Cat.get_category_maps. cbn [Cat.self].
  destruct (Cat._category_maps g) as [maps|]; [|done].
  destruct (dict_truthy maps); [|done].
  unfold Cat.get_inplace. cbn [Cat.self].
  destruct (Cat.inplace g); cbn [negb].
  - unfold mret, Cat.M_ret, finish.
    by destruct (Cat.for_each _ _ _) as [[[]|e] s'].
  - unfold Cat.copy_deep, mbind, Cat.M_bind, Cat.deref, Cat.alloc.
    cbn [Cat.heap Cat.self].
    destruct (h !! X) as [df|]; [|done].
    unfold mret, Cat.M_ret, finish.
    by destruct (Cat.for_each _ _ _) as [[[]|e] s'].
Qed.

Lemma _fit_transform_eq X g h :
  Cat._fit_transform X (Cat.mkState g h) =
  match h !! X with
  | None => (Raise DanglingReference, Cat.mkState g h)
  | Some df =>
      match Cat.get_category_map_loop df (column_names df) [] with
      | Raise e => (Raise e, Cat.mkState g h)
      | Ok maps =>
          match Cat._transform X
                  (Cat.mkState
                     (Cat.mk (Cat.inplace g) (Some maps)
                        (Cat.feature_metadata_in g)) h) with
          | (Ok X_out, s') =>
              (Ok (X_out,
                   type_group_map_special (Cat.feature_metadata_in (Cat.self s'))),
               s')
          | (Raise e, s') => (Raise e, s')
          end
      end
  end.
Proof.
  unfold Cat._fit_transform, Cat._get_category_map.
  unfold mbind, Cat.M_bind, Cat.deref, Cat.lift. cbn [Cat.heap].
  destruct (h !! X) as [df|]; [|done].
  destruct (Cat.get_category_map_loop df (column_names df) []) as [maps|e];
    [|done].
  unfold Cat.set_category_maps. cbn [Cat.heap Cat.self].
  destruct (Cat._transform _ _) as [[X_out|e] s']; done.
Qed.

(** ** Fitting *)

Lemma Frame_wf_elem df name s :
  Frame_wf df -> (name, s) ∈ columns df -> exists c, s = SCat c /\ Categorical_wf c.
Proof.
  intros [_ Hall] Hin. rewrite Forall_forall in Hall.
  specialize (Hall _ Hin). destruct s as [c|x]; [by exists c|done].
Qed.

Lemma Frame_wf_column_cat df k :
  Frame_wf df -> k ∈ column_names df ->
  exists c, column_cat df k = Ok c /\ (k, SCat c) ∈ columns df /\ Categorical_wf c.
Proof.
  intros Hwf Hk. apply list_elem_of_fmap in Hk as ([n s] & -> & Hin).
  destruct (Frame_wf_elem _ _ _ Hwf Hin) as (c & -> & Hc). exists c.
  split; [apply column_cat_NoDup; [apply Hwf|done]|]. done.
Qed.

Lemma get_category_map_loop_spec df todo acc :
  NoDup todo ->
  (forall k, k ∈ todo -> k ∉ dict_keys acc) ->
  (forall k, k ∈ todo -> exists c, column_cat df k = Ok c) ->
  exists maps,
    Cat.get_category_map_loop df todo acc = Ok maps /\
    dict_keys maps = dict_keys acc ++ todo /\
    (forall k c, k ∈ todo -> column_cat df k = Ok c ->
       dict_get maps k = Some (fitted_map (categories c))) /\
    (forall k, k ∉ todo -> dict_get maps k = dict_get acc k).
Proof.
  revert acc. induction todo as [|k0 todo IH]; intros acc Hnd Hfresh Hcat.
  - exists acc. cbn. rewrite app_nil_r. split_and!; try done.
    intros k c Hk. by apply elem_of_nil in Hk.
  - apply NoDup_cons in Hnd as [Hk0 Hnd].
    destruct (Hcat k0) as [c0 Hc0]; [apply list_elem_of_here|].
    cbn [Cat.get_category_map_loop]. rewrite Hc0. cbn [result_bind].
    destruct (IH (dict_set acc k0 (fitted_map (categories c0))))
      as (maps & Hrun & Hkeys & Hin & Hout); [done| |..].
    { intros k Hk. rewrite dict_keys_set.
      rewrite decide_False by (apply Hfresh, list_elem_of_here).
      intros [Hacc|Heq]%elem_of_app.
      - by eapply Hfresh; [apply list_elem_of_further|].
      - apply list_elem_of_singleton in Heq. by subst. }
    { intros k Hk. apply Hcat. by apply list_elem_of_further. }
    exists maps. split; [exact Hrun|]. split; [|split].
    + rewrite Hkeys, dict_keys_set.
      rewrite decide_False by (apply Hfresh, list_elem_of_here).
      by rewrite <-app_assoc.
    + intros k c [->|Hk]%elem_of_cons Hc.
      * rewrite Hout by done. rewrite dict_get_set_eq. congruence.
      * by apply Hin.
    + intros k [Hne Hk]%not_elem_of_cons. rewrite Hout by done.
      by apply dict_get_set_ne.
Qed.

Lemma NoDup_range n : NoDup (range n).
Proof.
  unfold range. apply NoDup_fmap_2; [apply _|apply NoDup_seq].
Qed.

Lemma renamed_fitted_map cats :
  NoDup cats -> renamed (fitted_map cats) <$> cats = LInt <$> range (length cats).
Proof.
  intros Hnd. apply list_eq. intros i. rewrite !list_lookup_fmap.
  destruct (cats !! i) as [l|] eqn:Hl; simpl.
  - rewrite range_lookup_nat by (by eapply lookup_lt_Some). simpl.
    unfold renamed.
    assert (fitted_map cats !! l = Some (Z.of_nat i)) as ->; [|done].
    apply fitted_map_enumerates; [done|]. split; [lia|]. by rewrite Nat2Z.id.
  - apply lookup_ge_None in Hl.
    rewrite (proj2 (lookup_ge_None _ _)); [done|]. by rewrite length_range.
Qed.

Lemma NoDup_minimized_categories n : NoDup (LInt <$> range n).
Proof.
  apply NoDup_fmap_2; [|apply NoDup_range]. by intros ?? [=].
Qed.

Lemma relabel_fitted maps df :
  Frame_wf df ->
  dict_keys maps = column_names df ->
  (forall k c, (k, SCat c) ∈ columns df ->
     dict_get maps k = Some (fitted_map (categories c))) ->
  relabel_in maps (dict_keys maps) <$> columns df
  = (fun p => (p.1, minimized_series p.2)) <$> columns df.
Proof.
  intros Hwf Hkeys Hmaps. apply Forall_fmap_ext, Forall_forall.
  intros [n s] Hin. destruct (Frame_wf_elem _ _ _ Hwf Hin) as (c & -> & [Hc _]).
  unfold relabel_in. cbn [fst snd]. rewrite decide_True.
  2:{ rewrite Hkeys. apply list_elem_of_fmap. by exists (n, SCat c). }
  rewrite (Hmaps _ _ Hin). cbn. by rewrite renamed_fitted_map.
Qed.

(** [_fit_transform] on a well-formed frame of categorical columns: what it
    returns, what it stores in the instance and what it does to the store. *)
Lemma _fit_transform_spec g h X df :
  h !! X = Some df -> Frame_wf df ->
  exists maps,
    dict_keys maps = column_names df /\
    (forall k c, (k, SCat c) ∈ columns df ->
       dict_get maps k = Some (fitted_map (categories c))) /\
    Cat._fit_transform X (Cat.mkState g h) =
    (Ok (if Cat.inplace g || negb (dict_truthy maps) then X else length h,
         type_group_map_special (Cat.feature_metadata_in g)),
     Cat.mkState (Cat.mk (Cat.inplace g) (Some maps) (Cat.feature_metadata_in g))
       (if negb (dict_truthy maps) then h
        else if Cat.inplace g then <[X := minimized_frame df]> h
        else h ++ [minimized_frame df])).
Proof.
  intros HX Hwf.
  destruct (get_category_map_loop_spec df (column_names df) [])
    as (maps & Hrun & Hkeys & Hin & _).
  { apply Hwf. }
  { intros k _. apply not_elem_of_nil. }
  { intros k Hk. destruct (Frame_wf_column_cat _ _ Hwf Hk) as (c & ? & _).
    by exists c. }
  cbn in Hkeys.
  assert (forall k c, (k, SCat c) ∈ columns df ->
            dict_get maps k = Some (fitted_map (categories c))) as Hmaps.
  { intros k c Hkc.
    assert (k ∈ column_names df) as Hk
      by (apply list_elem_of_fmap; by exists (k, SCat c)).
    apply Hin; [done|]. apply column_cat_NoDup; [apply Hwf|done]. }
  exists maps. split; [done|]. split; [done|].
  rewrite _fit_transform_eq, HX, Hrun, _transform_eq. cbn [Cat._category_maps].
  destruct (dict_truthy maps) eqn:Htruthy; cbn [negb orb];
    [|by rewrite orb_true_r].
  rewrite orb_false_r. cbn [Cat.inplace].
  assert (forall Y s, Cat.heap s !! Y = Some df ->
    Cat.for_each (dict_keys maps) (rename_body Y maps) s
    = (Ok tt, Cat.mkState (Cat.self s)
                (<[Y := minimized_frame df]> (Cat.heap s)))) as Hloop.
  { intros Y s HY.
    assert (NoDup (dict_keys maps)) as Hnd by (rewrite Hkeys; apply Hwf).
    destruct (for_each_rename_succeeds Y maps (dict_keys maps) s df Hnd HY)
      as [s' Hs'].
    { intros k Hk. rewrite Hkeys in Hk.
      destruct (Frame_wf_column_cat _ _ Hwf Hk) as (c & Hc & Hkc & [Hcats _]).
      exists c, (fitted_map (categories c)). split; [done|].
      split; [by apply Hmaps|].
      rewrite renamed_fitted_map by done. apply NoDup_minimized_categories. }
    rewrite Hs'. f_equal.
    rewrite (for_each_rename_Ok _ _ _ _ _ _ Hnd HY Hs').
    by rewrite relabel_fitted. }
  destruct (Cat.inplace g).
  - rewrite Hloop by done. done.
  - rewrite HX, Hloop.
    2:{ cbn [Cat.heap]. by rewrite lookup_app_r, Nat.sub_diag. }
    cbn [finish Cat.heap Cat.self]. do 2 f_equal.
    rewrite insert_app_r_alt, Nat.sub_diag by done. done.
Qed.

Lemma enumerates_one_to_one_onto m cats :
  enumerates m cats -> one_to_one_onto m cats.
Proof.
  intros H. split; [|split].
  - intros l. split.
    + intros [i Hi]. apply H in Hi as [_ Hi]. by eapply list_elem_of_lookup_2.
    + intros [j Hj]%list_elem_of_lookup_1. exists (Z.of_nat j).
      apply H. split; [lia|]. by rewrite Nat2Z.id.
  - intros l l' i [_ Hl]%H [_ Hl']%H. congruence.
  - intros i. split.
    + intros [l [Hi Hl]%H]. apply lookup_lt_Some in Hl. lia.
    + intros [Hi Hlt].
      destruct (lookup_lt_is_Some_2 cats (Z.to_nat i)) as [l Hl]; [lia|].
      exists l. by apply H.
Qed.

(** ** The fitted category maps *)

(** C1.  [_fit_transform] on a frame of categorical columns succeeds and
    stores one map per column, keyed by the column labels in column order.
    The map of a column is defined exactly on the [k] categories of the
    column, is one-to-one and onto [0 .. k-1], and sends every label to the
    position at which the encoding of the column enumerates it. *)
Theorem C1_category_map_one_to_one g h X df :
  h !! X = Some df -> Frame_wf df ->
  exists X_out special st' maps,
    Cat._fit_transform X (Cat.mkState g h) = (Ok (X_out, special), st') /\
    Cat._category_maps (Cat.self st') = Some maps /\
    dict_keys maps = column_names df /\
    forall name c, (name, SCat c) ∈ columns df ->
      exists m, dict_get maps name = Some m /\
        one_to_one_onto m (categories c) /\
        forall l i, m !! l = Some i <->
                    0 <= i /\ categories c !! Z.to_nat i = Some l.
Proof.
  intros HX Hwf.
  destruct (_fit_transform_spec g h X df HX Hwf) as (maps & Hkeys & Hmaps & Hrun).
  eexists _, _, _, maps. split; [exact Hrun|]. split; [done|]. split; [done|].
  intros name c Hin. exists (fitted_map (categories c)).
  split; [by apply Hmaps|].
  destruct (Frame_wf_elem _ _ _ Hwf Hin) as (c' & [= <-] & [Hnd _]).
  pose proof (fitted_map_enumerates _ Hnd) as Henum.
  split; [by apply enumerates_one_to_one_onto|]. exact Henum.
Qed.

Lemma C1_witness :
  exists X_out special st' maps,
    Cat._fit_transform 0%nat (Cat.mkState g0 [frame_of c1]) = (Ok (X_out, special), st') /\
    Cat._category_maps (Cat.self st') = Some maps /\
    dict_keys maps = column_names (frame_of c1) /\
    forall name c, (name, SCat c) ∈ columns (frame_of c1) ->
      exists m, dict_get maps name = Some m /\
        one_to_one_onto m (categories c) /\
        forall l i, m !! l = Some i <->
                    0 <= i /\ categories c !! Z.to_nat i = Some l.
Proof.
  apply (C1_category_map_one_to_one g0 [frame_of c1] 0%nat (frame_of c1)).
  - reflexivity.
  - apply (bool_decide_unpack _). vm_compute. exact I.
Defined.

(** ** An empty and an absent map set *)

(** C6.  When the stored map set is the empty dict, [_transform] returns the
    very object it was given and changes neither the store nor the
    instance. *)
Theorem C6_empty_maps_returns_input g h X :
  Cat._category_maps g = Some [] ->
  Cat._transform X (Cat.mkState g h) = (Ok X, Cat.mkState g h).
Proof. intros H. by rewrite _transform_eq, H. Qed.

Lemma C6_witness :
  Cat._transform 0%nat
    (Cat.mkState (Cat.mk false (Some []) (mkFeatureMetadata [])) [frame_of c1])
  = (Ok 0%nat,
     Cat.mkState (Cat.mk false (Some []) (mkFeatureMetadata [])) [frame_of c1]).
Proof.
  apply (C6_empty_maps_returns_input
           (Cat.mk false (Some []) (mkFeatureMetadata [])) [frame_of c1] 0%nat).
  reflexivity.
Defined.

(** C10.  A newly constructed instance has no [_category_maps] attribute, and
    [_transform] on an instance without it raises [AttributeError] and
    changes nothing.  So a [_transform] that returns at all runs on an
    instance that has the attribute; it returns its input unchanged when
    the attribute holds the empty dict. *)
Theorem C10_transform_before_fit :
  (forall inplace fm, Cat._category_maps (Cat.__init__ inplace fm) = None) /\
  (forall g h X, Cat._category_maps g = None ->
     Cat._transform X (Cat.mkState g h) = (Raise AttributeError, Cat.mkState g h)) /\
  (forall g h X X_out st',
     Cat._transform X (Cat.mkState g h) = (Ok X_out, st') ->
     exists maps, Cat._category_maps g = Some maps) /\
  (forall g h X, Cat._category_maps g = Some [] ->
     Cat._transform X (Cat.mkState g h) = (Ok X, Cat.mkState g h)).
Proof.
  split; [done|]. split; [|split].
  - intros g h X H. by rewrite _transform_eq, H.
  - intros g h X X_out st'. rewrite _transform_eq.
    destruct (Cat._category_maps g) as [maps|]; [by exists maps|done].
  - intros g h X H. by rewrite _transform_eq, H.
Qed.

(** ** Copy or mutation in place *)

Lemma finish_inv {A} (X : A) out (r : result A) s' :
  finish X out = (r, s') ->
  exists r0, out = (r0, s') /\
    match r0 with Ok _ => r = Ok X | Raise e => r = Raise e end.
Proof.
  destruct out as [[u|e] s0]; simpl; intros [= <- <-]; by eexists.
Qed.

Lemma inplace_flag g maps h X :
  Cat._category_maps g = Some maps ->
  dict_truthy maps = true ->
  NoDup (dict_keys maps) ->
  (Cat.inplace g = false ->
     forall r st', Cat._transform X (Cat.mkState g h) = (r, st') ->
       Cat.heap st' !! X = h !! X /\
       (forall Y, (Y < length h)%nat -> Cat.heap st' !! Y = h !! Y) /\
       forall X_out, r = Ok X_out ->
         X_out <> X /\
         exists df, h !! X = Some df /\
           Cat.heap st' !! X_out = Some (relabel_frame maps df)) /\
  (Cat.inplace g = true ->
     forall X_out st', Cat._transform X (Cat.mkState g h) = (Ok X_out, st') ->
       X_out = X /\
       exists df, h !! X = Some df /\
         Cat.heap st' !! X = Some (relabel_frame maps df)).
Proof.
  intros Hmaps Htruthy Hnd. split.
  - intros Hin r st'. rewrite _transform_eq, Hmaps, Htruthy, Hin.
    destruct (h !! X) as [df|] eqn:HX.
    2:{ intros [= <- <-]. cbn. split; [done|]. split; [done|]. done. }
    intros (r0 & Hrun & Hr)%finish_inv.
    assert ((h ++ [df]) !! length h = Some df) as Hnew
      by (by rewrite lookup_app_r, Nat.sub_diag).
    assert (X < length h)%nat as HXlt by (by eapply lookup_lt_Some).
    pose proof (for_each_rename_frame _ _ _ (Cat.mkState g (h ++ [df]))
                  _ _ _ Hnew Hrun) as (_ & _ & Hother & _).
    cbn [Cat.heap] in Hother.
    assert (forall Y, (Y < length h)%nat -> Cat.heap st' !! Y = h !! Y) as Hold.
    { intros Y HY. rewrite Hother by lia. by apply lookup_app_l. }
    split; [rewrite Hold by done; done|]. split; [done|].
    intros X_out ->. destruct r0 as [[]|e]; [|done].
    injection Hr as ->. split; [lia|]. exists df. split; [done|].
    rewrite (for_each_rename_Ok _ _ _ (Cat.mkState g (h ++ [df]))
               _ _ Hnd Hnew Hrun). cbn [Cat.heap].
    rewrite list_lookup_insert_eq by (rewrite length_app; simpl; lia). done.
  - intros Hin X_out st'. rewrite _transform_eq, Hmaps, Htruthy, Hin.
    intros (r0 & Hrun & Hr)%finish_inv.
    destruct r0 as [[]|e]; [|done]. injection Hr as ->. split; [done|].
    destruct (h !! X) as [df|] eqn:HX.
    + exists df. split; [done|].
      rewrite (for_each_rename_Ok _ _ _ (Cat.mkState g h) _ _ Hnd HX Hrun).
      cbn [Cat.heap].
      rewrite list_lookup_insert_eq by (by eapply lookup_lt_Some). done.
    + exfalso. destruct maps as [|[k m] maps]; [done|].
      cbn in Hrun. unfold mbind, Cat.M_bind, Cat.rename_categories_inplace,
        mbind, Cat.M_bind, Cat.deref in Hrun. cbn [Cat.heap] in Hrun.
      by rewrite HX in Hrun.
Qed.

(** ** The frame [_fit_transform] produces *)

Lemma minimized_code_value c z :
  -1 <= z < Z.of_nat (length (categories c)) ->
  code_value (categories (minimized c)) z
  = if z <? 0 then None else Some (LInt z).
Proof.
  intros Hz. unfold code_value, minimized. cbn [categories].
  destruct (z <? 0) eqn:Hneg; [done|]. apply Z.ltb_ge in Hneg.
  rewrite list_lookup_fmap, range_lookup_nat by lia. simpl.
  by rewrite Z2Nat.id.
Qed.

Lemma minimized_row_value c row i :
  Categorical_wf c -> 0 <= i ->
  cat_values (minimized c) !! row = Some (Some (LInt i)) <->
  exists l, categories c !! Z.to_nat i = Some l /\
            cat_values c !! row = Some (Some l).
Proof.
  intros [Hnd Hcodes] Hi. unfold cat_values. rewrite !list_lookup_fmap.
  change (codes (minimized c)) with (codes c).
  destruct (codes c !! row) as [z|] eqn:Hz; cbn [fmap option_fmap option_map].
  2:{ split; [done|]. by intros (l & _ & ?). }
  assert (-1 <= z < Z.of_nat (length (categories c))) as Hrange.
  { rewrite Forall_forall in Hcodes. apply Hcodes.
    by eapply list_elem_of_lookup_2. }
  rewrite minimized_code_value by done. unfold code_value.
  destruct (z <? 0) eqn:Hneg.
  { split; [done|]. by intros (l & _ & ?). }
  apply Z.ltb_ge in Hneg. split.
  - intros [= ->].
    destruct (lookup_lt_is_Some_2 (categories c) (Z.to_nat i)) as [l Hl]; [lia|].
    exists l. by rewrite Hl.
  - intros (l & Hl & [= Hl']).
    pose proof (NoDup_lookup _ _ _ _ Hnd Hl Hl').
    assert (z = i) as -> by lia. done.
Qed.

(** C3, amended.  [_fit_transform] on a frame of categorical columns returns
    a frame in which a column with [k] categories has exactly the categories
    [0 .. k-1] and its row codes as before, so that a row holds [i] exactly
    when it held the [i]-th category the encoding enumerates, and [i] occurs
    among the rows exactly when that category did.  The column
    [red, blue, red, green] whose encoding enumerates [red, blue, green]
    gets the map [{red: 0, blue: 1, green: 2}] and becomes [0, 1, 0, 2]. *)
Theorem C3_fit_transform_relabels g h X df :
  h !! X = Some df -> Frame_wf df ->
  (exists X_out special st',
     Cat._fit_transform X (Cat.mkState g h) = (Ok (X_out, special), st') /\
     Cat.heap st' !! X_out = Some (minimized_frame df) /\
     forall j name c, columns df !! j = Some (name, SCat c) ->
       columns (minimized_frame df) !! j = Some (name, SCat (minimized c)) /\
       categories (minimized c) = LInt <$> range (length (categories c)) /\
       codes (minimized c) = codes c /\
       (forall row i, 0 <= i ->
          cat_values (minimized c) !! row = Some (Some (LInt i)) <->
          exists l, categories c !! Z.to_nat i = Some l /\
                    cat_values c !! row = Some (Some l)) /\
       (forall i, 0 <= i ->
          Some (LInt i) ∈ cat_values (minimized c) <->
          exists l, categories c !! Z.to_nat i = Some l /\
                    Some l ∈ cat_values c)) /\
  (cat_values c1 = [Some red; Some blue; Some red; Some green] /\
   exists st',
     Cat._fit_transform 0%nat (Cat.mkState g0 [frame_of c1])
     = (Ok (1%nat, []), st') /\
     Cat._category_maps (Cat.self st')
     = Some [("color"%string, {[ red := 0; blue := 1; green := 2 ]})] /\
     Cat.heap st' !! 1%nat = Some (frame_of (minimized c1)) /\
     cat_values (minimized c1)
     = [Some (LInt 0); Some (LInt 1); Some (LInt 0); Some (LInt 2)]).
Proof.
  intros HX Hwf. split.
  - destruct (_fit_transform_spec g h X df HX Hwf) as (maps & Hkeys & Hmaps & Hrun).
    eexists _, _, _. split; [exact Hrun|]. split.
    + cbn [Cat.heap]. destruct (dict_truthy maps) eqn:Ht; cbn [negb].
      * rewrite orb_false_r. destruct (Cat.inplace g).
        -- apply list_lookup_insert_eq. by eapply lookup_lt_Some.
        -- by rewrite lookup_app_r, Nat.sub_diag.
      * rewrite orb_true_r, HX. f_equal.
        destruct maps; [|done]. destruct df as [idx cols].
        cbn in Hkeys. symmetry in Hkeys. apply fmap_nil_inv in Hkeys.
        cbn in Hkeys. by subst.
    + intros j name c Hj. split.
      { cbn [minimized_frame columns]. by rewrite list_lookup_fmap, Hj. }
      split; [done|]. split; [done|].
      assert (Categorical_wf c) as Hc.
      { destruct (Frame_wf_elem df name (SCat c) Hwf) as (c' & [= <-] & Hc);
          [|done]. by eapply list_elem_of_lookup_2. }
      split; [intros row i Hi; by apply minimized_row_value|].
      intros i Hi. rewrite list_elem_of_lookup. split.
      * intros [row Hrow]. apply minimized_row_value in Hrow as (l & ? & Hl);
          [|done..]. exists l. split; [done|]. by eapply list_elem_of_lookup_2.
      * intros (l & Hl & [row Hrow]%list_elem_of_lookup_1). exists row.
        apply minimized_row_value; eauto.
  - split; [reflexivity|]. eexists. split; [vm_compute; reflexivity|].
    split; [vm_compute; reflexivity|]. split; reflexivity.
Qed.

(** C3 as stated fails on both counts.  The column [red, blue, red, green]
    whose encoding enumerates its categories as [blue, green, red] gets the
    map [{blue: 0, green: 1, red: 2}] and becomes [2, 0, 2, 1].  The column
    [red, green] that knows the categories [red, blue, green] has two
    distinct values and becomes [0, 2]. *)
Lemma C3_counterexample :
  ~ (forall c : Categorical,
       Categorical_wf c ->
       cat_values c = [Some red; Some blue; Some red; Some green] ->
       forall X_out special st',
         Cat._fit_transform 0%nat (Cat.mkState g0 [frame_of c])
         = (Ok (X_out, special), st') ->
         Cat._category_maps (Cat.self st')
         = Some [("color"%string, {[ red := 0; blue := 1; green := 2 ]})] /\
         exists df' c', Cat.heap st' !! X_out = Some df' /\
           column_cat df' "color" = Ok c' /\
           cat_values c'
           = [Some (LInt 0); Some (LInt 1); Some (LInt 0); Some (LInt 2)]) /\
  ~ (forall c : Categorical,
       Categorical_wf c ->
       forall X_out special st' df' c',
         Cat._fit_transform 0%nat (Cat.mkState g0 [frame_of c])
         = (Ok (X_out, special), st') ->
         Cat.heap st' !! X_out = Some df' ->
         column_cat df' "color" = Ok c' ->
         forall v, v ∈ cat_values c' <->
           exists i, v = Some (LInt i) /\
             0 <= i < Z.of_nat (length (remove_dups (cat_values c)))).
Proof.
  split.
  - intros H.
    destruct (H c2) with (X_out := 1%nat)
      (special := @nil (string * list string))
      (st' := (Cat._fit_transform 0%nat (Cat.mkState g0 [frame_of c2])).2)
      as [_ (df' & c' & Hdf' & Hc' & Hvals)].
    + apply (bool_decide_unpack _). vm_compute. exact I.
    + reflexivity.
    + vm_compute. reflexivity.
    + vm_compute in Hdf'. injection Hdf' as <-.
      vm_compute in Hc'. injection Hc' as <-. discriminate Hvals.
  - intros H.
    pose proof (H c3) as H3.
    specialize (H3 ltac:(apply (bool_decide_unpack _); vm_compute; exact I)
                  1%nat [] (Cat._fit_transform 0%nat
                              (Cat.mkState g0 [frame_of c3])).2
                  (frame_of (minimized c3)) (minimized c3)
                  ltac:(vm_compute; reflexivity) ltac:(reflexivity)
                  ltac:(reflexivity) (Some (LInt 2))).
    destruct (proj1 H3) as (i & [= <-] & _ & Hlt).
    + vm_compute. apply list_elem_of_further, list_elem_of_here.
    + vm_compute in Hlt. discriminate Hlt.
Qed.

(** ** Shape and metadata of the category generator *)

Lemma rename_categories_inplace_self X k maps s r s' :
  Cat.rename_categories_inplace X k maps s = (r, s') -> Cat.self s' = Cat.self s.
Proof.
  unfold Cat.rename_categories_inplace, mbind, Cat.M_bind, Cat.deref, Cat.lift,
    Cat.assign.
  destruct (Cat.heap s !! X) as [df|]; [|by intros [= <- <-]].
  destruct (column_cat df k) as [c|]; [|by intros [= <- <-]].
  destruct (dict_get maps k) as [m|]; [|by intros [= <- <-]].
  destruct (rename_categories m c) as [c'|]; by intros [= <- <-].
Qed.

Lemma for_each_rename_self X maps ks s r s' :
  Cat.for_each ks (rename_body X maps) s = (r, s') -> Cat.self s' = Cat.self s.
Proof.
  revert s. induction ks as [|k ks IH]; intros s.
  - by intros [= <- <-].
  - cbn [Cat.for_each]. unfold mbind, Cat.M_bind.
    destruct (Cat.rename_categories_inplace X k maps s) as [[[]|e] s1] eqn:Hstep.
    + intros Hrun. rewrite (IH _ Hrun).
      by eapply rename_categories_inplace_self.
    + intros [= <- <-]. by eapply rename_categories_inplace_self.
Qed.

Lemma _transform_self X g h r st' :
  Cat._transform X (Cat.mkState g h) = (r, st') -> Cat.self st' = g.
Proof.
  rewrite _transform_eq.
  destruct (Cat._category_maps g) as [maps|]; [|by intros [= <- <-]].
  destruct (dict_truthy maps); [|by intros [= <- <-]].
  destruct (Cat.inplace g).
  - intros (r0 & Hrun & _)%finish_inv. by apply for_each_rename_self in Hrun.
  - destruct (h !! X) as [df|]; [|by intros [= <- <-]].
    intros (r0 & Hrun & _)%finish_inv. by apply for_each_rename_self in Hrun.
Qed.

Lemma _transform_shape X g h df X_out st' :
  h !! X = Some df ->
  Cat._transform X (Cat.mkState g h) = (Ok X_out, st') ->
  exists df', Cat.heap st' !! X_out = Some df' /\
    index df' = index df /\ frame_rows df' = frame_rows df.
Proof.
  intros HX. rewrite _transform_eq.
  destruct (Cat._category_maps g) as [maps|]; [|done].
  destruct (dict_truthy maps); [|intros [= <- <-]; by exists df].
  destruct (Cat.inplace g).
  - intros (r0 & Hrun & Hr)%finish_inv.
    destruct r0 as [[]|e]; [|done]. injection Hr as ->.
    by destruct (for_each_rename_frame _ _ _ (Cat.mkState g h) _ _ _ HX Hrun)
      as (_ & _ & _ & Hdf').
  - rewrite HX. intros (r0 & Hrun & Hr)%finish_inv.
    destruct r0 as [[]|e]; [|done]. injection Hr as ->.
    assert ((h ++ [df]) !! length h = Some df) as Hnew
      by (by rewrite lookup_app_r, Nat.sub_diag).
    by destruct (for_each_rename_frame _ _ _ (Cat.mkState g (h ++ [df]))
                   _ _ _ Hnew Hrun) as (_ & _ & _ & Hdf').
Qed.

Lemma _fit_transform_inv X g h X_out special st' :
  Cat._fit_transform X (Cat.mkState g h) = (Ok (X_out, special), st') ->
  exists maps,
    Cat._transform X
      (Cat.mkState (Cat.mk (Cat.inplace g) (Some maps) (Cat.feature_metadata_in g)) h)
    = (Ok X_out, st') /\
    special = type_group_map_special (Cat.feature_metadata_in g).
Proof.
  rewrite _fit_transform_eq.
  destruct (h !! X) as [df|]; [|done].
  destruct (Cat.get_category_map_loop df (column_names df) []) as [maps|]; [|done].
  destruct (Cat._transform _ _) as [[X'|e] s'] eqn:Hrun; [|done].
  intros [= <- <- <-]. exists maps. split; [done|].
  by rewrite (_transform_self _ _ _ _ _ Hrun).
Qed.

(** * Properties of the numeric generator *)

(** ** Clipping *)

Lemma clip_bounds lo hi v : lo <= hi -> lo <= clip lo hi v <= hi.
Proof. unfold clip. lia. Qed.

Lemma clip_below lo hi v : lo <= hi -> v <= lo -> clip lo hi v = lo.
Proof. unfold clip. lia. Qed.

Lemma clip_above lo hi v : hi <= v -> clip lo hi v = hi.
Proof. unfold clip. lia. Qed.

Lemma clip_inside lo hi v : lo <= v <= hi -> clip lo hi v = v.
Proof. unfold clip. lia. Qed.

(** ** Casts *)

Ltac pow2_pos e := assert (0 < 2 ^ e) by (apply Z.pow_pos_nonneg; lia).

Lemma wrap_unsigned_fixed w v :
  0 < w -> wrap_unsigned w v = v <-> 0 <= v <= 2 ^ w - 1.
Proof.
  intros Hw. unfold wrap_unsigned.
  pow2_pos w.
  split.
  - intros <-. pose proof (Z.mod_pos_bound v (2 ^ w)). lia.
  - intros Hv. apply Z.mod_small. lia.
Qed.

Lemma wrap_signed_fixed w v :
  0 < w -> wrap_signed w v = v <-> - 2 ^ (w - 1) <= v <= 2 ^ (w - 1) - 1.
Proof.
  intros Hw. unfold wrap_signed.
  pow2_pos (w - 1).
  assert (2 ^ w = 2 * 2 ^ (w - 1)) as Hpow.
  { rewrite <-Z.pow_succ_r by lia. f_equal. lia. }
  split.
  - intros Hv. pose proof (Z.mod_pos_bound (v + 2 ^ (w - 1)) (2 ^ w)). lia.
  - intros Hv. rewrite Z.mod_small; lia.
Qed.

(** The largest finite float is a multiple of every power of two up to its
    unit in the last place. *)
Lemma float_max_multiple p emax e :
  0 <= e <= emax - p + 1 ->
  float_max p emax = ((2 ^ p - 1) * 2 ^ (emax - p + 1 - e)) * 2 ^ e.
Proof.
  intros He. unfold float_max. rewrite <-Z.mul_assoc, <-Z.pow_add_r by lia.
  do 2 f_equal. lia.
Qed.

Lemma round_to_precision_nonneg p v : 0 <= v -> 0 <= round_to_precision p v.
Proof.
  intros Hv. unfold round_to_precision.
  destruct (Z.log2 (Z.abs v) + 1 - p <=? 0) eqn:He; [done|].
  apply Z.leb_gt in He.
  set (e := Z.log2 (Z.abs v) + 1 - p) in *.
  pow2_pos e.
  assert (0 <= Z.abs v / 2 ^ e) by (apply Z.div_pos; lia).
  assert (0 <= Z.sgn v) by lia.
  repeat case_match; nia.
Qed.

Lemma round_to_precision_opp p v :
  round_to_precision p (- v) = - round_to_precision p v.
Proof.
  unfold round_to_precision. rewrite Z.abs_opp, Z.sgn_opp.
  destruct (Z.log2 (Z.abs v) + 1 - p <=? 0); lia.
Qed.

(** Rounding a magnitude below the largest finite float stays below it. *)
Lemma round_to_precision_le_max p emax v :
  0 < p -> p - 1 <= emax ->
  0 <= v <= float_max p emax ->
  round_to_precision p v <= float_max p emax.
Proof.
  intros Hp Hemax [Hv0 Hv]. unfold round_to_precision.
  rewrite Z.abs_eq by done.
  destruct (Z.log2 v + 1 - p <=? 0) eqn:He; [done|].
  apply Z.leb_gt in He.
  assert (0 < v) as Hvpos.
  { destruct (decide (v = 0)) as [->|]; [|lia].
    rewrite Z.log2_nonpos in He; lia. }
  set (e := Z.log2 v + 1 - p) in *.
  pow2_pos p.
  pow2_pos (emax - p + 1).
  assert (float_max p emax < 2 ^ (emax + 1)) as Hmax.
  { unfold float_max. replace (emax + 1) with (p + (emax - p + 1)) by lia.
    rewrite (Z.pow_add_r 2 p (emax - p + 1)) by lia.
    apply Z.mul_lt_mono_pos_r; lia. }
  assert (e <= emax - p + 1) as HeE.
  { assert (Z.log2 v < emax + 1); [|lia].
    apply Z.log2_lt_pow2; lia. }
  rewrite (float_max_multiple p emax e) in * by lia.
  set (K := (2 ^ p - 1) * 2 ^ (emax - p + 1 - e)) in *.
  assert (0 < 2 ^ e) as Hpe by (apply Z.pow_pos_nonneg; lia).
  assert (0 < 2 ^ (e - 1)) as Hhalf by (apply Z.pow_pos_nonneg; lia).
  pose proof (Z.div_mod v (2 ^ e) ltac:(lia)) as Hdm.
  pose proof (Z.mod_pos_bound v (2 ^ e) Hpe) as Hr.
  set (q := v / 2 ^ e) in *. set (r := v mod 2 ^ e) in *.
  rewrite Z.sgn_pos by done.
  assert (q <= K) as HqK by nia.
  destruct (decide (q = K)) as [HK|HK].
  - assert (r = 0) as Hr0 by nia.
    rewrite Hr0. rewrite (proj2 (Z.ltb_lt 0 (2 ^ (e - 1)))) by done. nia.
  - assert (q + 1 <= K) by lia. repeat case_match; nia.
Qed.

Lemma round_to_precision_bounds p emax v :
  0 < p -> p - 1 <= emax ->
  - float_max p emax <= v <= float_max p emax ->
  - float_max p emax <= round_to_precision p v <= float_max p emax.
Proof.
  intros Hp Hemax Hv. destruct (Z.le_ge_cases 0 v) as [H0|H0].
  - pose proof (round_to_precision_nonneg p v H0).
    pose proof (round_to_precision_le_max p emax v Hp Hemax). lia.
  - pose proof (round_to_precision_nonneg p (- v)) as Hn.
    pose proof (round_to_precision_le_max p emax (- v) Hp Hemax) as Hle.
    rewrite round_to_precision_opp in Hn, Hle. lia.
Qed.

(** ** Introspection of dtypes *)

Lemma iinfo_Raise d e : iinfo d = Raise e -> e = ValueError.
Proof. unfold iinfo. repeat case_match; congruence. Qed.

Lemma _get_dtype_clip_args_eq d :
  Num._get_dtype_clip_args d =
  match iinfo d with
  | Ok i => Ok (info_dtype i, info_min i, info_max i)
  | Raise _ =>
      match finfo d with
      | Ok i => Ok (info_dtype i, info_min i, info_max i)
      | Raise e => Raise e
      end
  end.
Proof.
  unfold Num._get_dtype_clip_args.
  destruct (iinfo d) as [i|e] eqn:Hi; [done|].
  apply iinfo_Raise in Hi as ->. by destruct (finfo d).
Qed.

Lemma numeric_init_eq d fm :
  Num.__init__ d fm =
  match iinfo d with
  | Ok i => Ok (Num.mk (info_dtype i) (info_min i) (info_max i) fm)
  | Raise _ =>
      match finfo d with
      | Ok i => Ok (Num.mk (info_dtype i) (info_min i) (info_max i) fm)
      | Raise e => Raise e
      end
  end.
Proof.
  unfold Num.__init__. rewrite _get_dtype_clip_args_eq.
  destruct (iinfo d); [done|]. by destruct (finfo d).
Qed.

Lemma float_max_nonneg p emax : 0 < p -> p - 1 <= emax -> 0 <= float_max p emax.
Proof.
  intros Hp He. unfold float_max.
  pow2_pos p.
  pow2_pos (emax - p + 1).
  apply Z.mul_nonneg_nonneg; lia.
Qed.

Lemma float_max_finite p emax :
  0 < p -> p - 1 <= emax -> is_finite_float p emax (float_max p emax).
Proof.
  intros Hp He. exists (2 ^ p - 1), (emax - p + 1).
  pow2_pos p.
  pow2_pos (emax - p + 1).
  split; [lia|]. split; [lia|]. apply Z.abs_eq. by apply float_max_nonneg.
Qed.

Lemma finite_float_le_max p emax x :
  0 < p -> is_finite_float p emax x ->
  - float_max p emax <= x <= float_max p emax.
Proof.
  intros Hp (m & e & Hm & He & Hx).
  assert (Z.abs x <= float_max p emax); [|lia].
  rewrite Hx. unfold float_max.
  pow2_pos e.
  assert (2 ^ e <= 2 ^ (emax - p + 1)) by (apply Z.pow_le_mono_r; lia).
  nia.
Qed.

Lemma numeric_init_built d fm g : Num.__init__ d fm = Ok g -> built g.
Proof.
  rewrite numeric_init_eq.
  destruct d; unfold iinfo, finfo;
    cbn [integer_format float_format info_dtype info_min info_max];
    intros [= <-];
    first [ eapply built_int; reflexivity | eapply built_float; reflexivity ].
Qed.

Lemma float_format_positive d fd p emax :
  float_format d = Some (fd, p, emax) -> 0 < p /\ p - 1 <= emax.
Proof. destruct d; cbn; intros [= <- <- <-]; lia. Qed.

Lemma integer_format_positive d s w :
  integer_format d = Some (s, w) -> 0 < w.
Proof. destruct d; cbn; intros [= <- <-]; lia. Qed.

Lemma built_bounds g : built g -> Num._clip_min g <= Num._clip_max g.
Proof.
  intros [d s w fm lo hi Hfmt Hinfo|fd p emax fm _ Hfmt]; cbn.
  - unfold iinfo in Hinfo. rewrite Hfmt in Hinfo.
    pose proof (integer_format_positive _ _ _ Hfmt).
    pow2_pos w.
    pow2_pos (w - 1).
    destruct s; injection Hinfo as <- <-; lia.
  - destruct (float_format_positive _ _ _ _ Hfmt).
    pose proof (float_max_nonneg p emax). lia.
Qed.

(** An integer dtype represents exactly the values between its bounds. *)
Lemma built_int_fixed g s w v :
  built g -> integer_format (Num.dtype_out g) = Some (s, w) ->
  astype (Num.dtype_out g) v = v <-> Num._clip_min g <= v <= Num._clip_max g.
Proof.
  intros [d s' w' fm lo hi Hfmt Hinfo|fd p emax fm Hint _]; cbn;
    [|congruence].
  intros Hfmt'. unfold astype, iinfo in *. rewrite Hfmt in *.
  pose proof (integer_format_positive _ _ _ Hfmt).
  destruct s'; injection Hinfo as <- <-.
  - by apply wrap_signed_fixed.
  - by apply wrap_unsigned_fixed.
Qed.

(** The cast of a clipped value stays between the bounds. *)
Lemma built_astype_bounds g v :
  built g -> Num._clip_min g <= v <= Num._clip_max g ->
  Num._clip_min g <= astype (Num.dtype_out g) v <= Num._clip_max g.
Proof.
  intros Hg Hv. pose proof Hg as Hg'.
  destruct Hg as [d s w fm lo hi Hfmt Hinfo|fd p emax fm Hint Hfmt].
  - rewrite (proj2 (built_int_fixed _ s w v Hg' Hfmt)); done.
  - cbn in *. unfold astype. rewrite Hint, Hfmt.
    destruct (float_format_positive _ _ _ _ Hfmt).
    by apply round_to_precision_bounds.
Qed.

(** The bounds themselves are representable: the cast keeps them. *)
Lemma built_astype_min g :
  built g -> astype (Num.dtype_out g) (Num._clip_min g) = Num._clip_min g.
Proof.
  intros Hg. pose proof (built_bounds g Hg). pose proof Hg as Hg'.
  destruct Hg as [d s w fm lo hi Hfmt Hinfo|fd p emax fm Hint Hfmt].
  - apply (built_int_fixed _ s w _ Hg' Hfmt). cbn in *. lia.
  - destruct fd; cbn in Hfmt; try discriminate;
      injection Hfmt as <- <-; vm_compute; reflexivity.
Qed.

Lemma built_astype_max g :
  built g -> astype (Num.dtype_out g) (Num._clip_max g) = Num._clip_max g.
Proof.
  intros Hg. pose proof (built_bounds g Hg). pose proof Hg as Hg'.
  destruct Hg as [d s w fm lo hi Hfmt Hinfo|fd p emax fm Hint Hfmt].
  - apply (built_int_fixed _ s w _ Hg' Hfmt). cbn in *. lia.
  - destruct fd; cbn in Hfmt; try discriminate;
      injection Hfmt as <- <-; vm_compute; reflexivity.
Qed.

(** ** The numeric transform, column by column and row by row *)

Lemma _transform_columns g X j :
  columns (Num._transform g X) !! j =
  (fun p => (p.1, mkIntSeries (Num.dtype_out g)
                    ((fun v => astype (Num.dtype_out g)
                                 (clip (Num._clip_min g) (Num._clip_max g) v))
                       <$> series_values p.2)))
    <$> columns X !! j.
Proof.
  unfold Num._transform, Num._minimize_numeric_memory_usage, clip_and_astype.
  cbn [columns]. by rewrite list_lookup_fmap.
Qed.

(** C2.  For a generator built by [__init__] with bounds [lo, hi], every
    column of the transformed frame has the target dtype and as many rows as
    before, and row by row the output [v'] of an input [v] satisfies
    [lo <= v' <= hi], is [lo] when [v <= lo], is [hi] when [hi <= v], and is
    the cast of [v] when [v] is in range, which for an integer dtype is [v]
    itself.  The column [-5, 0, 130, 255, 300] becomes [0, 0, 130, 255, 255]
    under the default [uint8]. *)
Theorem C2_numeric_clip_saturates d fm g X :
  Num.__init__ d fm = Ok g ->
  (forall j name s, columns X !! j = Some (name, s) ->
     exists s', columns (Num._transform g X) !! j = Some (name, s') /\
       series_dtype s' = Num.dtype_out g /\
       length (series_values s') = length (series_values s) /\
       forall row v, series_values s !! row = Some v ->
         exists v', series_values s' !! row = Some v' /\
           Num._clip_min g <= v' <= Num._clip_max g /\
           (v <= Num._clip_min g -> v' = Num._clip_min g) /\
           (Num._clip_max g <= v -> v' = Num._clip_max g) /\
           (Num._clip_min g <= v <= Num._clip_max g ->
              v' = astype (Num.dtype_out g) v /\
              (is_Some (integer_format (Num.dtype_out g)) -> v' = v))) /\
  (forall name s' v', (name, s') ∈ columns (Num._transform g X) ->
     v' ∈ series_values s' -> Num._clip_min g <= v' <= Num._clip_max g) /\
  (Num.__init__ Num.default_dtype_out fm0 = Ok g_uint8 /\
   Num._transform g_uint8 X_example
   = mkDataFrame [0; 1; 2; 3; 4]
       [("x"%string, mkIntSeries uint8 [0; 0; 130; 255; 255])]).
Proof.
  intros Hinit. apply numeric_init_built in Hinit as Hg.
  pose proof (built_bounds g Hg) as Hle.
  split; [|split; [|split; reflexivity]].
  - intros j name s Hj. eexists. split.
    { rewrite _transform_columns, Hj. reflexivity. }
    cbn [series_dtype series_values fst snd]. split; [done|].
    split; [by rewrite length_fmap|].
    intros row v Hv. eexists. split.
    { rewrite list_lookup_fmap, Hv. reflexivity. }
    split; [apply built_astype_bounds; [done|by apply clip_bounds]|].
    split; [intros Hlo; rewrite clip_below by done; by apply built_astype_min|].
    split; [intros Hhi; rewrite clip_above by done; by apply built_astype_max|].
    intros Hin. rewrite clip_inside by done. split; [done|].
    intros [[sg w] Hfmt]. by apply (built_int_fixed g sg w v Hg Hfmt).
  - intros name s' v' Hin Hv'.
    apply list_elem_of_lookup_1 in Hin as [j Hj].
    rewrite _transform_columns in Hj.
    destruct (columns X !! j) as [[n s]|]; [|done].
    injection Hj as <- <-. cbn [series_values] in Hv'.
    apply list_elem_of_fmap in Hv' as (v & -> & _).
    apply built_astype_bounds; [done|by apply clip_bounds].
Qed.

Lemma C2_witness :
  (forall j name s, columns X_example !! j = Some (name, s) ->
     exists s', columns (Num._transform g_uint8 X_example) !! j = Some (name, s') /\
       series_dtype s' = Num.dtype_out g_uint8 /\
       length (series_values s') = length (series_values s) /\
       forall row v, series_values s !! row = Some v ->
         exists v', series_values s' !! row = Some v' /\
           Num._clip_min g_uint8 <= v' <= Num._clip_max g_uint8 /\
           (v <= Num._clip_min g_uint8 -> v' = Num._clip_min g_uint8) /\
           (Num._clip_max g_uint8 <= v -> v' = Num._clip_max g_uint8) /\
           (Num._clip_min g_uint8 <= v <= Num._clip_max g_uint8 ->
              v' = astype (Num.dtype_out g_uint8) v /\
              (is_Some (integer_format (Num.dtype_out g_uint8)) -> v' = v))) /\
  (forall name s' v', (name, s') ∈ columns (Num._transform g_uint8 X_example) ->
     v' ∈ series_values s' ->
     Num._clip_min g_uint8 <= v' <= Num._clip_max g_uint8) /\
  (Num.__init__ Num.default_dtype_out fm0 = Ok g_uint8 /\
   Num._transform g_uint8 X_example
   = mkDataFrame [0; 1; 2; 3; 4]
       [("x"%string, mkIntSeries uint8 [0; 0; 130; 255; 255])]).
Proof.
  apply (C2_numeric_clip_saturates uint8 fm0 g_uint8 X_example).
  reflexivity.
Defined.

(** C8.  The frame [_fit_transform] returns is the one [_transform] returns
    on the same input, and with it comes the special type groups of the
    feature metadata.  The frame depends on the instance only through the
    target dtype and the clip bounds set at construction. *)
Theorem C8_numeric_fit_transform_is_transform :
  (forall g X,
     (Num._fit_transform g X).1 = Num._transform g X /\
     (Num._fit_transform g X).2
     = type_group_map_special (Num.feature_metadata_in g)) /\
  (forall g g' X,
     Num.dtype_out g = Num.dtype_out g' ->
     Num._clip_min g = Num._clip_min g' ->
     Num._clip_max g = Num._clip_max g' ->
     (Num._fit_transform g X).1 = (Num._fit_transform g' X).1).
Proof.
  split; [done|]. intros g g' X Hd Hlo Hhi.
  unfold Num._fit_transform, Num._transform,
    Num._minimize_numeric_memory_usage. cbn [fst].
  by rewrite Hd, Hlo, Hhi.
Qed.


(** * Properties on the examples and of both generators *)

(** ** Witnesses on the example column *)

Lemma frame_of_c1_wf : Frame_wf (frame_of c1).
Proof. apply (bool_decide_unpack _). vm_compute. exact I. Qed.

Lemma C3_witness :
  (exists X_out special st',
     Cat._fit_transform 0%nat (Cat.mkState g0 [frame_of c1])
     = (Ok (X_out, special), st') /\
     Cat.heap st' !! X_out = Some (minimized_frame (frame_of c1)) /\
     forall j name c, columns (frame_of c1) !! j = Some (name, SCat c) ->
       columns (minimized_frame (frame_of c1)) !! j
       = Some (name, SCat (minimized c)) /\
       categories (minimized c) = LInt <$> range (length (categories c)) /\
       codes (minimized c) = codes c /\
       (forall row i, 0 <= i ->
          cat_values (minimized c) !! row = Some (Some (LInt i)) <->
          exists l, categories c !! Z.to_nat i = Some l /\
                    cat_values c !! row = Some (Some l)) /\
       (forall i, 0 <= i ->
          Some (LInt i) ∈ cat_values (minimized c) <->
          exists l, categories c !! Z.to_nat i = Some l /\
                    Some l ∈ cat_values c)) /\
  (cat_values c1 = [Some red; Some blue; Some red; Some green] /\
   exists st',
     Cat._fit_transform 0%nat (Cat.mkState g0 [frame_of c1])
     = (Ok (1%nat, []), st') /\
     Cat._category_maps (Cat.self st')
     = Some [("color"%string, {[ red := 0; blue := 1; green := 2 ]})] /\
     Cat.heap st' !! 1%nat = Some (frame_of (minimized c1)) /\
     cat_values (minimized c1)
     = [Some (LInt 0); Some (LInt 1); Some (LInt 0); Some (LInt 2)]).
Proof.
  apply (C3_fit_transform_relabels g0 [frame_of c1] 0%nat (frame_of c1)).
  - reflexivity.
  - exact frame_of_c1_wf.
Defined.

(** ** Shape *)

Lemma frame_rows_names df df' :
  frame_rows df' = frame_rows df -> column_names df' = column_names df.
Proof.
  intros H. apply (f_equal (fmap fst)) in H. unfold frame_rows in H.
  by rewrite <-!list_fmap_compose in H.
Qed.

Lemma frame_rows_counts df df' :
  frame_rows df' = frame_rows df ->
  (fun p => length (row_codes p.2)) <$> columns df'
  = (fun p => length (row_codes p.2)) <$> columns df.
Proof.
  intros H. apply (f_equal (fmap (fun q => length q.2))) in H.
  unfold frame_rows in H. by rewrite <-!list_fmap_compose in H.
Qed.

(** C7.  The numeric [_transform] and [_fit_transform] keep the index, the
    column labels in order and the number of rows of every column, and row
    [i] of the output is computed from row [i] of the input.  A category
    [_transform] or [_fit_transform] that returns, returns a frame with the
    same index, the same column labels in order and, column by column, the
    same row codes in the same order; on a frame of categorical columns
    [_fit_transform] does return. *)
Theorem C7_shape_preserved :
  (forall g X,
     index (Num._transform g X) = index X /\
     column_names (Num._transform g X) = column_names X /\
     (fun p => length (series_values p.2)) <$> columns (Num._transform g X)
     = (fun p => length (series_values p.2)) <$> columns X /\
     (forall j name s, columns X !! j = Some (name, s) ->
        exists s', columns (Num._transform g X) !! j = Some (name, s') /\
          series_values s'
          = (fun v => astype (Num.dtype_out g)
                        (clip (Num._clip_min g) (Num._clip_max g) v))
              <$> series_values s) /\
     (Num._fit_transform g X).1 = Num._transform g X) /\
  (forall g h X df X_out st',
     h !! X = Some df ->
     Cat._transform X (Cat.mkState g h) = (Ok X_out, st') ->
     exists df', Cat.heap st' !! X_out = Some df' /\
       index df' = index df /\
       column_names df' = column_names df /\
       (fun p => length (row_codes p.2)) <$> columns df'
       = (fun p => length (row_codes p.2)) <$> columns df /\
       frame_rows df' = frame_rows df) /\
  (forall g h X df X_out special st',
     h !! X = Some df ->
     Cat._fit_transform X (Cat.mkState g h) = (Ok (X_out, special), st') ->
     exists df', Cat.heap st' !! X_out = Some df' /\
       index df' = index df /\
       column_names df' = column_names df /\
       (fun p => length (row_codes p.2)) <$> columns df'
       = (fun p => length (row_codes p.2)) <$> columns df /\
       frame_rows df' = frame_rows df) /\
  (forall g h X df,
     h !! X = Some df -> Frame_wf df ->
     exists X_out special st',
       Cat._fit_transform X (Cat.mkState g h) = (Ok (X_out, special), st')).
Proof.
  split; [|split; [|split]].
  - intros g X. split; [done|]. split; [|split; [|split; [|done]]].
    + unfold column_names, Num._transform, Num._minimize_numeric_memory_usage,
        clip_and_astype. cbn [columns]. by rewrite <-list_fmap_compose.
    + unfold Num._transform, Num._minimize_numeric_memory_usage,
        clip_and_astype. cbn [columns]. rewrite <-list_fmap_compose.
      apply list_fmap_ext. intros i p _. cbn. by rewrite length_fmap.
    + intros j name s Hj. eexists. split.
      * rewrite _transform_columns, Hj. reflexivity.
      * reflexivity.
  - intros g h X df X_out st' HX Hrun.
    destruct (_transform_shape _ _ _ _ _ _ HX Hrun) as (df' & ? & ? & Hrows).
    exists df'. split; [done|]. split; [done|].
    split; [by apply frame_rows_names|].
    split; [by apply frame_rows_counts|done].
  - intros g h X df X_out special st' HX Hrun.
    apply _fit_transform_inv in Hrun as (maps & Hrun & _).
    destruct (_transform_shape _ _ _ _ _ _ HX Hrun) as (df' & ? & ? & Hrows).
    exists df'. split; [done|]. split; [done|].
    split; [by apply frame_rows_names|].
    split; [by apply frame_rows_counts|done].
  - intros g h X df HX Hwf.
    destruct (_fit_transform_spec g h X df HX Hwf) as (maps & _ & _ & Hrun).
    eauto.
Qed.

(** ** Metadata *)

(** C9.  The second component of what [_fit_transform] returns is the
    [type_group_map_special] of the instance's [feature_metadata_in], for
    every input: always for the numeric generator, and whenever the call
    returns for the category generator, which also leaves the metadata of
    the instance as it was and does return on a frame of categorical
    columns. *)
Theorem C9_metadata_passes_through :
  (forall g X,
     (Num._fit_transform g X).2
     = type_group_map_special (Num.feature_metadata_in g)) /\
  (forall g h X X_out special st',
     Cat._fit_transform X (Cat.mkState g h) = (Ok (X_out, special), st') ->
     special = type_group_map_special (Cat.feature_metadata_in g) /\
     Cat.feature_metadata_in (Cat.self st') = Cat.feature_metadata_in g) /\
  (forall g h X df,
     h !! X = Some df -> Frame_wf df ->
     exists X_out st',
       Cat._fit_transform X (Cat.mkState g h)
       = (Ok (X_out, type_group_map_special (Cat.feature_metadata_in g)), st')).
Proof.
  split; [done|]. split.
  - intros g h X X_out special st' Hrun.
    apply _fit_transform_inv in Hrun as (maps & Hrun & ->). split; [done|].
    by rewrite (_transform_self _ _ _ _ _ Hrun).
  - intros g h X df HX Hwf.
    destruct (_fit_transform_spec g h X df HX Hwf) as (maps & _ & _ & Hrun).
    eauto.
Qed.

(** ** Failure paths *)

(** C5, amended.  [__init__] raises exactly when neither [np.iinfo] nor
    [np.finfo] knows the dtype, and then with the exception of [np.finfo].
    When it returns, the instance holds the dtype, minimum and maximum that
    [np.iinfo] reports, or those of [np.finfo] when [np.iinfo] raises; the
    bounds are the least and the largest value the dtype represents.  No
    other call of the numeric generator raises; calls of the category
    generator's [_transform] and [_fit_transform] can. *)
Theorem C5_construction_failure :
  (forall d fm,
     is_Raise (Num.__init__ d fm) <-> is_Raise (iinfo d) /\ is_Raise (finfo d)) /\
  (forall d fm e, Num.__init__ d fm = Raise e -> finfo d = Raise e) /\
  (forall d fm g, Num.__init__ d fm = Ok g ->
     (exists info,
        (iinfo d = Ok info \/ (is_Raise (iinfo d) /\ finfo d = Ok info)) /\
        g = Num.mk (info_dtype info) (info_min info) (info_max info) fm) /\
     Num._clip_min g <= Num._clip_max g /\
     (is_Some (integer_format (Num.dtype_out g)) ->
        forall v, astype (Num.dtype_out g) v = v <->
                  Num._clip_min g <= v <= Num._clip_max g) /\
     (forall fd p emax,
        integer_format (Num.dtype_out g) = None ->
        float_format (Num.dtype_out g) = Some (fd, p, emax) ->
        is_finite_float p emax (Num._clip_min g) /\
        is_finite_float p emax (Num._clip_max g) /\
        forall x, is_finite_float p emax x ->
                  Num._clip_min g <= x <= Num._clip_max g)) /\
  (forall c, fails c ->
     match c with
     | NumericInit d _ => is_Raise (iinfo d) /\ is_Raise (finfo d)
     | CategoryTransform _ _ _ | CategoryFitTransform _ _ _ => True
     | _ => False
     end).
Proof.
  assert (forall d fm,
    is_Raise (Num.__init__ d fm) <-> is_Raise (iinfo d) /\ is_Raise (finfo d))
    as Hiff.
  { intros d fm. rewrite numeric_init_eq.
    destruct (iinfo d), (finfo d); cbn; tauto. }
  split; [exact Hiff|]. split; [|split].
  - intros d fm e. rewrite numeric_init_eq.
    destruct (iinfo d); [done|].
    destruct (finfo d); [done|]. by intros [= ->].
  - intros d fm g Hinit. pose proof (numeric_init_built _ _ _ Hinit) as Hg.
    split; [|split; [by apply built_bounds|split]].
    + rewrite numeric_init_eq in Hinit.
      destruct (iinfo d) as [i|e]; [injection Hinit as <-; eauto|].
      destruct (finfo d) as [i|e']; [|done].
      injection Hinit as <-. exists i. split; [by right|done].
    + intros [[s w] Hfmt] v. by apply (built_int_fixed g s w v).
    + intros fd p emax Hint Hfmt.
      destruct Hg as [d' s w fm' lo hi Hfmt' _|fd' p' emax' fm' _ Hfmt'];
        cbn in *; [congruence|].
      rewrite Hfmt' in Hfmt. injection Hfmt as <- <- <-.
      destruct (float_format_positive _ _ _ _ Hfmt') as [Hp He].
      pose proof (float_max_finite p' emax' Hp He) as Hmax.
      split; [|split; [done|]].
      * destruct Hmax as (m & e & ? & ? & Habs). exists m, e.
        by rewrite Z.abs_opp.
      * intros x Hx. by apply finite_float_le_max.
  - intros [d fm|g X|g X|b fm|g h X|g h X]; cbn; try done.
    apply Hiff.
Qed.

(** C5 as stated fails in its last part: construction of the numeric
    generator is not the only call of the two generators that raises, since
    the category generator's [_transform] raises on a new instance. *)
Lemma C5_counterexample :
  ~ (forall c, fails c ->
       exists d fm, c = NumericInit d fm /\
                    is_Raise (iinfo d) /\ is_Raise (finfo d)).
Proof.
  intros H.
  destruct (H (CategoryTransform g0 [frame_of c1] 0%nat)) as (d & fm & Heq & _).
  - exact I.
  - discriminate Heq.
Qed.

(** * Further properties of the category generator *)

(** ** Frames [_fit_transform] rejects, and frames without columns *)

Lemma column_cat_of_column df k :
  k ∈ column_names df ->
  (exists c, column_cat df k = Ok c) \/ column_cat df k = Raise AttributeError.
Proof.
  intros Hk. apply list_elem_of_fmap in Hk as ([n s] & -> & Hin).
  assert ((n, s) ∈ filter (fun p => p.1 = n) (columns df)) as Hf
    by (by apply list_elem_of_filter).
  unfold column_cat. cbn [fst] in *.
  destruct (filter (fun p => p.1 = n) (columns df)) as [|[n1 s1] [|q l]].
  - by apply elem_of_nil in Hf.
  - destruct s1 as [c|x]; [left; by exists c|by right].
  - right. by destruct s1.
Qed.

Lemma get_category_map_loop_inv df todo acc maps :
  Cat.get_category_map_loop df todo acc = Ok maps ->
  forall k, k ∈ todo -> exists c, column_cat df k = Ok c.
Proof.
  revert acc. induction todo as [|k0 todo IH]; intros acc Hrun k Hk.
  - by apply elem_of_nil in Hk.
  - cbn [Cat.get_category_map_loop] in Hrun.
    destruct (column_cat df k0) as [c0|e] eqn:Hc0; [|done].
    cbn [result_bind] in Hrun.
    apply elem_of_cons in Hk as [->|Hk]; [by exists c0|]. by eapply IH.
Qed.

Lemma get_category_map_loop_error df todo acc e :
  todo ⊆ column_names df ->
  Cat.get_category_map_loop df todo acc = Raise e -> e = AttributeError.
Proof.
  revert acc. induction todo as [|k0 todo IH]; intros acc Hsub Hrun; [done|].
  cbn [Cat.get_category_map_loop] in Hrun.
  destruct (column_cat_of_column df k0) as [[c0 Hc0]|Hc0].
  { apply Hsub, list_elem_of_here. }
  - rewrite Hc0 in Hrun. cbn [result_bind] in Hrun.
    eapply IH; [|exact Hrun]. intros k Hk. by apply Hsub, list_elem_of_further.
  - rewrite Hc0 in Hrun. cbn in Hrun. congruence.
Qed.

Lemma singleton_filters_NoDup (l : list (string * Series)) :
  (forall k, k ∈ l.*1 -> exists s, filter (fun p => p.1 = k) l = [(k, s)]) ->
  NoDup l.*1.
Proof.
  induction l as [|[n x] l IH]; intros H; [constructor|].
  rewrite fmap_cons. cbn [fst].
  assert (n ∉ l.*1) as Hn.
  { destruct (H n) as [s Hs]; [rewrite fmap_cons; apply list_elem_of_here|].
    rewrite filter_cons_True in Hs by done. injection Hs as _ Hs.
    intros ([n' s'] & -> & Hin)%list_elem_of_fmap.
    by eapply (filter_nil_not_elem_of _ _ (n', s')) in Hs. }
  apply NoDup_cons. split; [done|]. apply IH. intros k Hk.
  destruct (H k) as [s Hs]; [rewrite fmap_cons; by apply list_elem_of_further|].
  assert (n <> k) by (intros ->; done).
  rewrite filter_cons_False in Hs by done. eauto.
Qed.

Lemma get_category_map_loop_Ok_all_categorical df maps :
  Cat.get_category_map_loop df (column_names df) [] = Ok maps ->
  all_categorical df.
Proof.
  intros Hrun. pose proof (get_category_map_loop_inv _ _ _ _ Hrun) as Hall.
  split.
  - apply singleton_filters_NoDup. intros k Hk.
    destruct (Hall k Hk) as [c Hc]. apply column_cat_Ok_filter in Hc. eauto.
  - apply Forall_forall. intros [n s] Hin.
    destruct (Hall n) as [c Hc]; [apply list_elem_of_fmap; by exists (n, s)|].
    by rewrite (column_cat_Ok_elem _ _ _ _ Hc Hin).
Qed.

(** X1.  On a frame with a column that is not categorical, or with a column
    label that occurs twice, [_fit_transform] raises [AttributeError] while
    it builds the maps: no map is stored and no object changes. *)
Theorem X1_fit_rejects_other_frames g h X df :
  h !! X = Some df -> ~ all_categorical df ->
  Cat._fit_transform X (Cat.mkState g h)
  = (Raise AttributeError, Cat.mkState g h).
Proof.
  intros HX Hnot. rewrite _fit_transform_eq, HX.
  destruct (Cat.get_category_map_loop df (column_names df) []) as [maps|e] eqn:E.
  - by apply get_category_map_loop_Ok_all_categorical in E.
  - by apply get_category_map_loop_error in E as ->.
Qed.

(** X2.  On a frame without columns [_fit_transform] stores the empty dict
    and returns the very object it was given, also when [inplace] is
    [False]: no copy is made. *)
Theorem X2_fit_without_columns g h X df :
  h !! X = Some df -> columns df = [] ->
  Cat._fit_transform X (Cat.mkState g h)
  = (Ok (X, type_group_map_special (Cat.feature_metadata_in g)),
     Cat.mkState (Cat.mk (Cat.inplace g) (Some []) (Cat.feature_metadata_in g)) h).
Proof.
  intros HX Hcols. rewrite _fit_transform_eq, HX.
  unfold column_names. rewrite Hcols. cbn. by rewrite _transform_eq.
Qed.

(** In copy mode no existing object changes and at most one is added. *)
Lemma _transform_copy_frame X g h r st' :
  Cat.inplace g = false ->
  Cat._transform X (Cat.mkState g h) = (r, st') ->
  (forall Y, (Y < length h)%nat -> Cat.heap st' !! Y = h !! Y) /\
  (length h <= length (Cat.heap st') <= length h + 1)%nat.
Proof.
  intros Hin. rewrite _transform_eq, Hin.
  destruct (Cat._category_maps g) as [maps|];
    [|intros [= <- <-]; cbn; split; [done|lia]].
  destruct (dict_truthy maps); [|intros [= <- <-]; cbn; split; [done|lia]].
  destruct (h !! X) as [df|] eqn:HX;
    [|intros [= <- <-]; cbn; split; [done|lia]].
  intros (r0 & Hrun & _)%finish_inv.
  assert ((h ++ [df]) !! length h = Some df) as Hnew
    by (by rewrite lookup_app_r, Nat.sub_diag).
  destruct (for_each_rename_frame _ _ _ (Cat.mkState g (h ++ [df]))
              _ _ _ Hnew Hrun) as (_ & Hlen & Hother & _).
  cbn [Cat.heap] in *. rewrite length_app in Hlen. cbn in Hlen. split; [|lia].
  intros Y HY. rewrite Hother by lia. by apply lookup_app_l.
Qed.

(** X3.  With [inplace = False], [_fit_transform] changes no object that
    existed before the call, whatever its outcome, and adds at most one. *)
Theorem X3_fit_copy_keeps_store g h X r st' :
  Cat.inplace g = false ->
  Cat._fit_transform X (Cat.mkState g h) = (r, st') ->
  (forall Y, (Y < length h)%nat -> Cat.heap st' !! Y = h !! Y) /\
  (length h <= length (Cat.heap st') <= length h + 1)%nat.
Proof.
  intros Hin. rewrite _fit_transform_eq.
  destruct (h !! X) as [df|]; [|intros [= <- <-]; cbn; split; [done|lia]].
  destruct (Cat.get_category_map_loop df (column_names df) []) as [maps|e];
    [|intros [= <- <-]; cbn; split; [done|lia]].
  destruct (Cat._transform _ _) as [r0 s0] eqn:Hrun.
  apply _transform_copy_frame in Hrun; [|done].
  destruct r0; intros [= <- <-]; done.
Qed.

(** X4.  [_transform] leaves the instance as it was (flag, maps and
    metadata), whatever its outcome; it removes no object, adds at most one,
    and adds none when [inplace] is [True]. *)
Theorem X4_transform_keeps_instance g h X df r st' :
  h !! X = Some df ->
  Cat._transform X (Cat.mkState g h) = (r, st') ->
  Cat.self st' = g /\
  (length h <= length (Cat.heap st') <= length h + 1)%nat /\
  (Cat.inplace g = true -> length (Cat.heap st') = length h).
Proof.
  intros HX Hrun. split; [by eapply _transform_self|].
  destruct (Cat.inplace g) eqn:Hflag.
  - assert (length (Cat.heap st') = length h) as ->; [|split; [lia|done]].
    rewrite _transform_eq, Hflag in Hrun.
    destruct (Cat._category_maps g) as [maps|]; [|by injection Hrun as <- <-].
    destruct (dict_truthy maps); [|by injection Hrun as <- <-].
    apply finish_inv in Hrun as (r0 & Hrun & _).
    by destruct (for_each_rename_frame _ _ _ (Cat.mkState g h) _ _ _ HX Hrun)
      as (_ & Hlen & _).
  - split; [|done]. by eapply _transform_copy_frame.
Qed.

(** X5.  [_fit_transform] never reads maps stored by an earlier fit: result
    and store are the same whatever the instance held before, and so is the
    instance after a call that returns. *)
Theorem X5_refit_forgets_old_maps inplace old1 old2 fm h X :
  (Cat._fit_transform X (Cat.mkState (Cat.mk inplace old1 fm) h)).1
  = (Cat._fit_transform X (Cat.mkState (Cat.mk inplace old2 fm) h)).1 /\
  Cat.heap (Cat._fit_transform X (Cat.mkState (Cat.mk inplace old1 fm) h)).2
  = Cat.heap (Cat._fit_transform X (Cat.mkState (Cat.mk inplace old2 fm) h)).2 /\
  (forall out,
     (Cat._fit_transform X (Cat.mkState (Cat.mk inplace old1 fm) h)).1 = Ok out ->
     (Cat._fit_transform X (Cat.mkState (Cat.mk inplace old1 fm) h)).2
     = (Cat._fit_transform X (Cat.mkState (Cat.mk inplace old2 fm) h)).2).
Proof.
  rewrite !_fit_transform_eq. cbn [Cat.inplace Cat.feature_metadata_in].
  destruct (h !! X) as [df|]; [|done].
  destruct (Cat.get_category_map_loop df (column_names df) []) as [maps|e];
    [|done].
  by destruct (Cat._transform _ _) as [[X_out|e] s'].
Qed.

(** ** Columns of a relabelled frame *)

Lemma relabel_in_fst maps ks p : (relabel_in maps ks p).1 = p.1.
Proof.
  unfold relabel_in. destruct (decide (p.1 ∈ ks)); [|done].
  by destruct (dict_get maps p.1).
Qed.

Lemma filter_name_relabel maps ks (l : list (string * Series)) k :
  filter (fun p => p.1 = k) (relabel_in maps ks <$> l)
  = relabel_in maps ks <$> filter (fun p => p.1 = k) l.
Proof.
  induction l as [|p l IH]; [done|].
  rewrite fmap_cons. destruct (decide (p.1 = k)) as [Hp|Hp].
  - rewrite !filter_cons_True by (by rewrite ?relabel_in_fst).
    by rewrite fmap_cons, IH.
  - rewrite !filter_cons_False by (by rewrite ?relabel_in_fst). done.
Qed.

Lemma column_cat_relabel_other maps ks df k :
  k ∉ ks ->
  column_cat (mkDataFrame (index df) (relabel_in maps ks <$> columns df)) k
  = column_cat df k.
Proof.
  intros Hk. unfold column_cat. cbn [columns]. rewrite filter_name_relabel.
  assert (relabel_in maps ks <$> filter (fun p => p.1 = k) (columns df)
          = filter (fun p => p.1 = k) (columns df)) as ->; [|done].
  rewrite <-(list_fmap_id (filter _ _)) at 2.
  apply Forall_fmap_ext, Forall_forall. intros p [Hp _]%list_elem_of_filter.
  unfold relabel_in. rewrite decide_False; [done|]. by rewrite Hp.
Qed.

Lemma column_cat_relabel_same maps ks df k m c :
  k ∈ ks -> dict_get maps k = Some m -> column_cat df k = Ok c ->
  column_cat (mkDataFrame (index df) (relabel_in maps ks <$> columns df)) k
  = Ok (mkCategorical (renamed m <$> categories c) (codes c)).
Proof.
  intros Hk Hm Hc. apply column_cat_Ok_filter. apply column_cat_Ok_filter in Hc.
  cbn [columns]. rewrite filter_name_relabel, Hc. cbn.
  unfold relabel_in. cbn [fst snd]. by rewrite decide_True, Hm.
Qed.

Lemma column_cat_KeyError df k :
  column_cat df k = Raise KeyError <-> k ∉ column_names df.
Proof.
  split.
  - intros Hc Hk. destruct (column_cat_of_column df k Hk) as [[c Hc']|Hc'];
      congruence.
  - intros Hk. unfold column_cat. by rewrite filter_name_absent.
Qed.

(** ** Relabelling, said without the code *)

Lemma sends_renamed m l : sends m l (renamed m l).
Proof.
  unfold sends, renamed. split.
  - by intros i ->.
  - by intros ->.
Qed.

Lemma sends_unique m l l' : sends m l l' -> l' = renamed m l.
Proof.
  intros [Hknown Hunknown]. unfold renamed.
  destruct (m !! l) as [i|]; [by apply Hknown|by apply Hunknown].
Qed.

Lemma Forall2_sends_renamed m cats :
  Forall2 (sends m) cats (renamed m <$> cats).
Proof.
  induction cats as [|l cats IH]; [constructor|].
  rewrite fmap_cons. constructor; [apply sends_renamed|done].
Qed.

Lemma Forall2_sends_unique m cats cats' :
  Forall2 (sends m) cats cats' -> cats' = renamed m <$> cats.
Proof.
  induction 1 as [|l l' cats cats' Hl _ IH]; [done|].
  rewrite fmap_cons. f_equal; [by apply sends_unique|done].
Qed.

Lemma renames_apart_iff m c :
  renames_apart m c <-> NoDup (renamed m <$> categories c).
Proof.
  split.
  - intros (cats' & Hsends & Hnd).
    by rewrite <-(Forall2_sends_unique _ _ _ Hsends).
  - intros Hnd. eexists. split; [apply Forall2_sends_renamed|done].
Qed.

Lemma renames_collide_iff m c :
  renames_collide m c <-> ~ NoDup (renamed m <$> categories c).
Proof.
  split.
  - intros (cats' & Hsends & Hnd).
    by rewrite <-(Forall2_sends_unique _ _ _ Hsends).
  - intros Hnd. eexists. split; [apply Forall2_sends_renamed|done].
Qed.


Lemma column_names_relabel maps ks df :
  column_names (mkDataFrame (index df) (relabel_in maps ks <$> columns df))
  = column_names df.
Proof.
  unfold column_names. cbn [columns]. rewrite <-list_fmap_compose.
  apply list_fmap_ext. intros i p _. apply relabel_in_fst.
Qed.

(** ** The loop up to its first failure *)

Lemma for_each_rename_app X maps ks1 ks2 s :
  Cat.for_each (ks1 ++ ks2) (rename_body X maps) s
  = match Cat.for_each ks1 (rename_body X maps) s with
    | (Ok _, s1) => Cat.for_each ks2 (rename_body X maps) s1
    | (Raise e, s1) => (Raise e, s1)
    end.
Proof.
  revert s. induction ks1 as [|k ks1 IH]; intros s; [done|].
  cbn [app Cat.for_each]. unfold mbind, Cat.M_bind.
  destruct (Cat.rename_categories_inplace X k maps s) as [[[]|e] s1]; [|done].
  apply IH.
Qed.



Lemma for_each_rename_stops maps fm h X df ks1 k ks2 e :
  dict_keys maps = ks1 ++ k :: ks2 ->
  NoDup (dict_keys maps) ->
  h !! X = Some df ->
  (forall k', k' ∈ ks1 -> exists c m,
     column_cat df k' = Ok c /\ dict_get maps k' = Some m /\
     NoDup (renamed m <$> categories c)) ->
  stops_at maps df k e ->
  Cat._transform X (Cat.mkState (Cat.mk true (Some maps) fm) h)
  = (Raise e,
     Cat.mkState (Cat.mk true (Some maps) fm)
       (<[X := mkDataFrame (index df) (relabel_in maps ks1 <$> columns df)]> h)).
Proof.
  intros Hkeys Hnd HX Hpre Hstop.
  rewrite _transform_eq. cbn [Cat._category_maps Cat.inplace].
  assert (dict_truthy maps = true) as ->.
  { destruct maps; [|done]. by destruct ks1. }
  rewrite Hkeys in *. apply NoDup_app in Hnd as (Hnd1 & Hdisj & Hnd2).
  rewrite for_each_rename_app.
  destruct (for_each_rename_succeeds X maps ks1
              (Cat.mkState (Cat.mk true (Some maps) fm) h) df Hnd1 HX Hpre)
    as [s1 Hs1].
  rewrite Hs1. apply for_each_rename_Ok with (df := df) in Hs1 as ->; [|done..].
  cbn [Cat.self Cat.heap Cat.for_each]. unfold mbind, Cat.M_bind.
  assert (k ∉ ks1) as Hk.
  { intros Hk. apply (Hdisj k Hk), list_elem_of_here. }
  erewrite rename_categories_inplace_eq.
  2:{ cbn [Cat.heap]. apply list_lookup_insert_eq. by eapply lookup_lt_Some. }
  rewrite column_cat_relabel_other by done.
  destruct Hstop as [[Hmiss ->]|[(Hin & Hnot & ->)|(c & m & Hc & Hm & Hdup & ->)]].
  - apply column_cat_KeyError in Hmiss. by rewrite Hmiss.
  - destruct (column_cat_of_column df k Hin) as [[c Hc]|Hc].
    + by destruct (Hnot c).
    + by rewrite Hc.
  - apply renames_collide_iff in Hdup.
    rewrite Hc, Hm. unfold rename_categories. by rewrite decide_False.
Qed.


Lemma relabel_in_other maps ks p : p.1 ∉ ks -> relabel_in maps ks p = p.
Proof. intros Hp. unfold relabel_in. by rewrite decide_False. Qed.

Lemma columns_relabel_other maps ks df p :
  p.1 ∉ ks ->
  p ∈ relabel_in maps ks <$> columns df <-> p ∈ columns df.
Proof.
  intros Hp. rewrite list_elem_of_fmap. split.
  - intros (q & -> & Hq). rewrite relabel_in_fst in Hp.
    by rewrite relabel_in_other.
  - intros Hin. exists p. by rewrite relabel_in_other.
Qed.

(** X6.  The loop over the stored maps stops at the first key it cannot
    handle, with [KeyError] for a missing column, [AttributeError] for a
    column that is not one categorical and [ValueError] for categories that
    collide once renamed.  With [inplace = True] the caller's frame is then
    left half done: the columns of the earlier keys hold codes, a category
    the map knows having become its code, and the column that stopped the
    loop and every later one are as they were.  Nothing is rolled back. *)
Theorem X6_inplace_failure_is_partial maps fm h X df ks1 k ks2 e :
  dict_keys maps = ks1 ++ k :: ks2 ->
  NoDup (dict_keys maps) ->
  h !! X = Some df ->
  (forall k', k' ∈ ks1 -> exists c m,
     column_cat df k' = Ok c /\ dict_get maps k' = Some m /\
     renames_apart m c) ->
  stops_at maps df k e ->
  exists st' df',
    Cat._transform X (Cat.mkState (Cat.mk true (Some maps) fm) h)
    = (Raise e, st') /\
    Cat.heap st' !! X = Some df' /\
    index df' = index df /\
    column_names df' = column_names df /\
    (forall k' m c, k' ∈ ks1 -> dict_get maps k' = Some m ->
       column_cat df k' = Ok c ->
       exists c', column_cat df' k' = Ok c' /\
         codes c' = codes c /\
         length (categories c') = length (categories c) /\
         (forall j l i, categories c !! j = Some l -> m !! l = Some i ->
            categories c' !! j = Some (LInt i)) /\
         (forall j l, categories c !! j = Some l -> m !! l = None ->
            categories c' !! j = Some l)) /\
    (forall k', k' ∉ ks1 -> column_cat df' k' = column_cat df k') /\
    (forall p, p.1 ∉ ks1 -> p ∈ columns df' <-> p ∈ columns df).
Proof.
  intros Hkeys Hnd HX Hpre Hstop.
  eexists _, (mkDataFrame (index df) (relabel_in maps ks1 <$> columns df)).
  split.
  { apply for_each_rename_stops with (df := df) (k := k) (ks2 := ks2); try done.
    intros k' Hk'. destruct (Hpre k' Hk') as (c & m & Hc & Hm & Hap).
    exists c, m. by rewrite <-renames_apart_iff. }
  cbn [Cat.heap]. split.
  { apply list_lookup_insert_eq. by eapply lookup_lt_Some. }
  split; [done|]. split; [apply column_names_relabel|]. split; [|split].
  - intros k' m c Hk' Hm Hc. eexists. split.
    { by apply column_cat_relabel_same. }
    cbn [categories codes]. split; [done|]. split; [by rewrite length_fmap|].
    split.
    + intros j l i Hj Hl. rewrite list_lookup_fmap, Hj. cbn.
      unfold renamed. by rewrite Hl.
    + intros j l Hj Hl. rewrite list_lookup_fmap, Hj. cbn.
      unfold renamed. by rewrite Hl.
  - intros k' Hk'. by apply column_cat_relabel_other.
  - intros p Hp. by apply columns_relabel_other.
Qed.

(** ** The frame a transform that returns has produced *)

Lemma _transform_Ok_frame g maps h X df X_out st' :
  Cat._category_maps g = Some maps ->
  NoDup (dict_keys maps) ->
  h !! X = Some df ->
  Cat._transform X (Cat.mkState g h) = (Ok X_out, st') ->
  Cat.heap st' !! X_out = Some (relabel_frame maps df).
Proof.
  intros Hmaps Hnd HX Hrun.
  destruct (dict_truthy maps) eqn:Ht.
  - destruct (inplace_flag g maps h X Hmaps Ht Hnd) as [Hcopy Hin].
    destruct (Cat.inplace g) eqn:Hflag.
    + destruct (Hin eq_refl _ _ Hrun) as (-> & df0 & Hdf0 & ?). congruence.
    + destruct (Hcopy eq_refl _ _ Hrun) as (_ & _ & Hout).
      destruct (Hout X_out eq_refl) as (_ & df0 & Hdf0 & ?). congruence.
  - rewrite _transform_eq, Hmaps, Ht in Hrun. injection Hrun as <- <-.
    destruct maps; [|done]. cbn [Cat.heap]. rewrite HX. f_equal.
    unfold relabel_frame. rewrite relabel_in_nil. by destruct df.
Qed.

Lemma code_value_fmap (f : label -> label) cats z :
  code_value (f <$> cats) z = f <$> code_value cats z.
Proof.
  unfold code_value. destruct (z <? 0); [done|]. by rewrite list_lookup_fmap.
Qed.

Lemma cat_values_renamed (m : gmap label Z) (c : Categorical) :
  cat_values (mkCategorical (fmap (M:=list) (renamed m) (categories c)) (codes c))
  = (fun v : option label => renamed m <$> v) <$> cat_values c.
Proof.
  unfold cat_values. cbn [categories codes]. rewrite <-list_fmap_compose.
  apply list_fmap_ext. intros i z _. apply code_value_fmap.
Qed.




(** ** The flag [inplace] *)



(** Both modes on the example, the categories [red; blue; green] having
    become [0; 1; 2]: the copy leaves the caller's frame as it was, the
    mutation in place shows through the caller's reference. *)
Example inplace_flag_on_example :
  (exists st',
     Cat._transform 0%nat
       (Cat.mkState (Cat.mk false (Some maps1) fm0) [frame_of c1])
     = (Ok 1%nat, st') /\
     Cat.heap st'
     = [frame_of c1;
        frame_of (mkCategorical [LInt 0; LInt 1; LInt 2] [0; 1; 0; 2])]) /\
  (exists st',
     Cat._transform 0%nat
       (Cat.mkState (Cat.mk true (Some maps1) fm0) [frame_of c1])
     = (Ok 0%nat, st') /\
     Cat.heap st'
     = [frame_of (mkCategorical [LInt 0; LInt 1; LInt 2] [0; 1; 0; 2])]).
Proof. split; eexists; split; vm_compute; reflexivity. Qed.

(** ** What a transform that returns has done, row by row *)


(** ** Transforming with the maps of a fit *)

Lemma _transform_succeeds g maps h X df :
  Cat._category_maps g = Some maps ->
  NoDup (dict_keys maps) ->
  h !! X = Some df ->
  (forall k, k ∈ dict_keys maps -> exists c m,
     column_cat df k = Ok c /\ dict_get maps k = Some m /\
     NoDup (renamed m <$> categories c)) ->
  exists X_out st', Cat._transform X (Cat.mkState g h) = (Ok X_out, st').
Proof.
  intros Hmaps Hnd HX Hpre. rewrite _transform_eq, Hmaps.
  destruct (dict_truthy maps); [|eauto].
  destruct (Cat.inplace g).
  - destruct (for_each_rename_succeeds X maps (dict_keys maps)
                (Cat.mkState g h) df Hnd HX Hpre) as [s' ->].
    cbn. eauto.
  - rewrite HX.
    destruct (for_each_rename_succeeds (length h) maps (dict_keys maps)
                (Cat.mkState g (h ++ [df])) df Hnd) as [s' ->]; [|done|].
    + cbn [Cat.heap]. by rewrite lookup_app_r, Nat.sub_diag.
    + cbn. eauto.
Qed.

Lemma renamed_fitted_lookup cats l (i : nat) :
  NoDup cats -> cats !! i = Some l ->
  renamed (fitted_map cats) l = LInt (Z.of_nat i).
Proof.
  intros Hnd Hl. unfold renamed.
  assert (fitted_map cats !! l = Some (Z.of_nat i)) as ->; [|done].
  apply fitted_map_enumerates; [done|]. split; [lia|]. by rewrite Nat2Z.id.
Qed.

Lemma NoDup_renamed_fitted cats1 cats :
  NoDup cats1 -> NoDup cats -> cats ⊆ cats1 ->
  NoDup (renamed (fitted_map cats1) <$> cats).
Proof.
  intros Hnd1 Hnd Hsub. apply NoDup_fmap_2_strong; [|done].
  intros x y Hx Hy Heq.
  apply Hsub, list_elem_of_lookup_1 in Hx as [i Hi].
  apply Hsub, list_elem_of_lookup_1 in Hy as [j Hj].
  rewrite (renamed_fitted_lookup _ _ _ Hnd1 Hi),
    (renamed_fitted_lookup _ _ _ Hnd1 Hj) in Heq.
  assert (i = j) as -> by (injection Heq; lia). congruence.
Qed.

(** What [_fit_transform] leaves in the instance. *)
Lemma _fit_transform_instance g0 h0 X0 df out st1 :
  h0 !! X0 = Some df -> Frame_wf df ->
  Cat._fit_transform X0 (Cat.mkState g0 h0) = (Ok out, st1) ->
  exists maps,
    Cat._category_maps (Cat.self st1) = Some maps /\
    dict_keys maps = column_names df /\
    (forall k c, (k, SCat c) ∈ columns df ->
       dict_get maps k = Some (fitted_map (categories c))).
Proof.
  intros HX Hwf Hrun.
  destruct (_fit_transform_spec g0 h0 X0 df HX Hwf)
    as (maps & Hkeys & Hmaps & Hspec).
  rewrite Hspec in Hrun. injection Hrun as <- <-. by exists maps.
Qed.

(** X8.  After a fit on one frame, [_transform] of another frame whose
    columns carry only categories seen at fit time returns, and a row
    holding a label gets the position of that label in the enumeration of
    the fitted frame, wherever the label sits in the encoding of the
    transformed frame; missing values stay missing. *)
Theorem X8_transform_uses_fit_codes g0 h0 X0 df_fit out st1 h X df :
  h0 !! X0 = Some df_fit -> Frame_wf df_fit ->
  Cat._fit_transform X0 (Cat.mkState g0 h0) = (Ok out, st1) ->
  h !! X = Some df ->
  (forall k c1, (k, SCat c1) ∈ columns df_fit ->
     exists c, column_cat df k = Ok c /\ NoDup (categories c) /\
               categories c ⊆ categories c1) ->
  exists X_out st' df',
    Cat._transform X (Cat.mkState (Cat.self st1) h) = (Ok X_out, st') /\
    Cat.heap st' !! X_out = Some df' /\
    forall k c1 c, (k, SCat c1) ∈ columns df_fit -> column_cat df k = Ok c ->
      exists c', column_cat df' k = Ok c' /\
        (forall row l (i : nat),
           cat_values c !! row = Some (Some l) ->
           categories c1 !! i = Some l ->
           cat_values c' !! row = Some (Some (LInt (Z.of_nat i)))) /\
        (forall row, cat_values c !! row = Some None ->
                     cat_values c' !! row = Some None).
Proof.
  intros HX0 Hwf Hfit HX Htest.
  destruct (_fit_transform_instance _ _ _ _ _ _ HX0 Hwf Hfit)
    as (maps & Hmaps & Hkeys & Hget).
  assert (NoDup (dict_keys maps)) as Hnd by (rewrite Hkeys; apply Hwf).
  destruct (_transform_succeeds (Cat.self st1) maps h X df Hmaps Hnd HX)
    as (X_out & st' & Hrun).
  { intros k Hk. rewrite Hkeys in Hk.
    destruct (Frame_wf_column_cat _ _ Hwf Hk) as (c1 & _ & Hin & [Hnd1 _]).
    destruct (Htest _ _ Hin) as (c & Hc & Hndc & Hsub).
    exists c, (fitted_map (categories c1)). split; [done|].
    split; [by apply Hget|]. by apply NoDup_renamed_fitted. }
  exists X_out, st', (relabel_frame maps df). split; [done|].
  split; [by eapply _transform_Ok_frame|].
  intros k c1 c Hin Hc. eexists. split.
  { apply column_cat_relabel_same; [|by apply Hget|done].
    rewrite Hkeys. apply list_elem_of_fmap. by exists (k, SCat c1). }
  destruct (Frame_wf_elem _ _ _ Hwf Hin) as (c1' & [= <-] & [Hnd1 _]).
  rewrite cat_values_renamed. split.
  - intros row l i Hrow Hi. rewrite list_lookup_fmap, Hrow. cbn.
    by rewrite (renamed_fitted_lookup _ _ _ Hnd1 Hi).
  - intros row Hrow. by rewrite list_lookup_fmap, Hrow.
Qed.

(** ** A second transform *)

Lemma string_labels_elem df k c l :
  string_labels df -> (k, SCat c) ∈ columns df -> l ∈ categories c ->
  exists s, l = LStr s.
Proof.
  intros Hall Hin Hl. unfold string_labels in Hall.
  rewrite Forall_forall in Hall. specialize (Hall _ Hin). cbn in Hall.
  rewrite Forall_forall in Hall. specialize (Hall _ Hl).
  destruct l as [s|z]; [by exists s|done].
Qed.

Lemma filter_name_minimized (l : list (string * Series)) k :
  filter (fun p => p.1 = k) ((fun p => (p.1, minimized_series p.2)) <$> l)
  = (fun p => (p.1, minimized_series p.2)) <$> filter (fun p => p.1 = k) l.
Proof.
  induction l as [|p l IH]; [done|].
  rewrite fmap_cons. destruct (decide (p.1 = k)) as [Hp|Hp].
  - rewrite !filter_cons_True by done. by rewrite fmap_cons, IH.
  - rewrite !filter_cons_False by done. done.
Qed.

Lemma column_cat_minimized df k c :
  column_cat df k = Ok c -> column_cat (minimized_frame df) k = Ok (minimized c).
Proof.
  rewrite !column_cat_Ok_filter. intros H. unfold minimized_frame.
  cbn [columns]. by rewrite filter_name_minimized, H.
Qed.

Lemma renamed_code_of_strings cats n :
  NoDup cats -> (forall l, l ∈ cats -> exists s, l = LStr s) ->
  renamed (fitted_map cats) <$> (LInt <$> range n) = LInt <$> range n.
Proof.
  intros Hnd Hstr. rewrite <-list_fmap_compose.
  apply list_fmap_ext. intros i z _. cbn. unfold renamed.
  destruct (fitted_map cats !! LInt z) as [j|] eqn:Hj; [|done].
  apply fitted_map_enumerates in Hj as [_ Hj]; [|done].
  apply list_elem_of_lookup_2, Hstr in Hj as [s Hs]. discriminate.
Qed.

(** Where [_fit_transform] leaves the frame it returns. *)
Lemma _fit_transform_output g h X df X_out special st' :
  h !! X = Some df -> Frame_wf df ->
  Cat._fit_transform X (Cat.mkState g h) = (Ok (X_out, special), st') ->
  Cat.heap st' !! X_out = Some (minimized_frame df).
Proof.
  intros HX Hwf Hrun.
  destruct (_fit_transform_spec g h X df HX Hwf) as (maps & Hkeys & _ & Hspec).
  rewrite Hspec in Hrun. injection Hrun as <- _ <-. cbn [Cat.heap].
  destruct (dict_truthy maps) eqn:Ht; cbn [negb].
  - rewrite orb_false_r. destruct (Cat.inplace g).
    + apply list_lookup_insert_eq. by eapply lookup_lt_Some.
    + by rewrite lookup_app_r, Nat.sub_diag.
  - rewrite orb_true_r, HX. f_equal.
    destruct maps; [|done]. destruct df as [idx cols].
    cbn in Hkeys. symmetry in Hkeys. apply fmap_nil_inv in Hkeys.
    cbn in Hkeys. by subst.
Qed.

(** X9.  When every category of the fitted frame is a string, a
    [_transform] of the frame [_fit_transform] returned returns a frame equal
    to it.  Integer categories can break this: the categories [1, 0] become
    [0, 1] and a second transform makes them [1, 0] again. *)
Theorem X9_second_transform_changes_nothing g0 h0 X0 df X_out special st1 :
  h0 !! X0 = Some df -> Frame_wf df -> string_labels df ->
  Cat._fit_transform X0 (Cat.mkState g0 h0) = (Ok (X_out, special), st1) ->
  (exists X_out2 st2,
     Cat._transform X_out st1 = (Ok X_out2, st2) /\
     Cat.heap st1 !! X_out = Some (minimized_frame df) /\
     Cat.heap st2 !! X_out2 = Some (minimized_frame df)) /\
  (exists st1' st2',
     Cat._fit_transform 0%nat (Cat.mkState (Cat.__init__ true fm0) [frame_of c_ints])
     = (Ok (0%nat, []), st1') /\
     Cat.heap st1' = [frame_of (mkCategorical [LInt 0; LInt 1] [0; 1])] /\
     Cat._transform 0%nat st1' = (Ok 0%nat, st2') /\
     Cat.heap st2' = [frame_of (mkCategorical [LInt 1; LInt 0] [0; 1])]).
Proof.
  intros HX Hwf Hstr0 Hfit.
  pose proof (string_labels_elem df) as Hstr.
  specialize (fun k c l => Hstr k c l Hstr0). split.
  2:{ eexists _, _. split; [vm_compute; reflexivity|].
      split; [reflexivity|]. split; vm_compute; reflexivity. }
  destruct (_fit_transform_instance _ _ _ _ _ _ HX Hwf Hfit)
    as (maps & Hmaps & Hkeys & Hget).
  assert (Cat.heap st1 !! X_out = Some (minimized_frame df)) as Hout.
  { by eapply _fit_transform_output. }
  assert (NoDup (dict_keys maps)) as Hnd by (rewrite Hkeys; apply Hwf).
  destruct st1 as [g1 h1]. cbn [Cat.self Cat.heap] in *.
  assert (forall k, k ∈ dict_keys maps -> exists c,
            (k, SCat c) ∈ columns df /\ column_cat df k = Ok c /\
            NoDup (categories c) /\
            (forall l, l ∈ categories c -> exists s, l = LStr s)) as Hcol.
  { intros k Hk. rewrite Hkeys in Hk.
    destruct (Frame_wf_column_cat _ _ Hwf Hk) as (c & Hc & Hin & [Hndc _]).
    exists c. split_and!; try done. intros l Hl. by eapply Hstr. }
  destruct (_transform_succeeds g1 maps h1 X_out (minimized_frame df)
              Hmaps Hnd Hout) as (X_out2 & st2 & Hrun).
  { intros k Hk. destruct (Hcol k Hk) as (c & Hin & Hc & Hndc & Hs).
    exists (minimized c), (fitted_map (categories c)).
    split; [by apply column_cat_minimized|]. split; [by apply Hget|].
    cbn [minimized categories]. rewrite renamed_code_of_strings by done.
    apply NoDup_minimized_categories. }
  exists X_out2, st2. split; [done|]. split; [done|].
  rewrite (_transform_Ok_frame _ _ _ _ _ _ _ Hmaps Hnd Hout Hrun). f_equal.
  unfold relabel_frame, minimized_frame. cbn [index columns]. f_equal.
  rewrite <-list_fmap_compose. apply Forall_fmap_ext, Forall_forall.
  intros [n s] Hin. unfold compose, relabel_in. cbn [fst snd].
  destruct (decide (n ∈ dict_keys maps)) as [Hn|]; [|done].
  destruct (Hcol n Hn) as (c & Hinc & Hc & Hndc & Hs).
  rewrite (Hget _ _ Hinc), (column_cat_Ok_elem _ _ _ _ Hc Hin).
  cbn. by rewrite renamed_code_of_strings.
Qed.

(** ** Decoding *)

Lemma inverse_map_lookup m i l :
  (forall l1 l2 j, m !! l1 = Some j -> m !! l2 = Some j -> l1 = l2) ->
  inverse_map m !! i = Some l <-> m !! l = Some i.
Proof.
  intros Hinj. unfold inverse_map. split.
  - intros ([l' i'] & [= -> ->] & Hin)%elem_of_list_to_map_2%list_elem_of_fmap.
    by apply elem_of_map_to_list.
  - intros Hl. apply elem_of_list_to_map_1'.
    + intros y ([l' i'] & [= -> ->] & Hin)%list_elem_of_fmap.
      apply elem_of_map_to_list in Hin. by eapply Hinj.
    + apply list_elem_of_fmap. exists (l, i). split; [done|].
      by apply elem_of_map_to_list.
Qed.

Lemma decode_minimized c :
  Categorical_wf c ->
  decode (fitted_map (categories c)) <$> cat_values (minimized c)
  = cat_values c.
Proof.
  intros [Hnd Hcodes]. unfold cat_values.
  change (codes (minimized c)) with (codes c).
  rewrite <-list_fmap_compose. apply Forall_fmap_ext.
  eapply Forall_impl; [exact Hcodes|]. intros z Hz. unfold compose.
  rewrite minimized_code_value by done. unfold code_value.
  destruct (z <? 0) eqn:Hneg; [done|]. apply Z.ltb_ge in Hneg. cbn.
  pose proof (fitted_map_enumerates _ Hnd) as Henum.
  apply option_eq. intros l. rewrite inverse_map_lookup.
  - rewrite (Henum l z). tauto.
  - apply (enumerates_one_to_one_onto _ _ Henum).
Qed.

(** X10.  The relabelling loses nothing: reading the stored map of a column
    backwards turns every row of the frame [_fit_transform] returned into the
    row of the input, missing values included. *)
Theorem X10_codes_decode_to_labels g h X df X_out special st' :
  h !! X = Some df -> Frame_wf df ->
  Cat._fit_transform X (Cat.mkState g h) = (Ok (X_out, special), st') ->
  exists maps df',
    Cat._category_maps (Cat.self st') = Some maps /\
    Cat.heap st' !! X_out = Some df' /\
    forall k c, (k, SCat c) ∈ columns df ->
      exists m c', dict_get maps k = Some m /\ column_cat df' k = Ok c' /\
        decode m <$> cat_values c' = cat_values c.
Proof.
  intros HX Hwf Hfit.
  destruct (_fit_transform_instance _ _ _ _ _ _ HX Hwf Hfit)
    as (maps & Hmaps & Hkeys & Hget).
  exists maps, (minimized_frame df). split; [done|].
  split; [by eapply _fit_transform_output|].
  intros k c Hin. exists (fitted_map (categories c)), (minimized c).
  split; [by apply Hget|]. split.
  - apply column_cat_minimized, column_cat_NoDup; [apply Hwf|done].
  - apply decode_minimized.
    by destruct (Frame_wf_elem _ _ _ Hwf Hin) as (c' & [= <-] & ?).
Qed.

(** * Further properties of the numeric generator *)

(** ** Two numeric generators in a row *)

Lemma clip_clip lo1 hi1 lo2 hi2 v :
  lo1 <= lo2 -> lo2 <= hi2 -> hi2 <= hi1 ->
  clip lo2 hi2 (clip lo1 hi1 v) = clip lo2 hi2 v.
Proof. unfold clip. lia. Qed.

Lemma clip_and_astype_twice df lo1 hi1 d1 lo2 hi2 d2 :
  (forall v, astype d2 (clip lo2 hi2 (astype d1 (clip lo1 hi1 v)))
             = astype d2 (clip lo2 hi2 v)) ->
  clip_and_astype (clip_and_astype df lo1 hi1 d1) lo2 hi2 d2
  = clip_and_astype df lo2 hi2 d2.
Proof.
  intros Hv. unfold clip_and_astype. cbn [index columns]. f_equal.
  rewrite <-list_fmap_compose. apply list_fmap_ext. intros i [n s] _.
  cbn. do 2 f_equal. rewrite <-list_fmap_compose.
  apply list_fmap_ext. intros j v _. apply Hv.
Qed.

(** X11.  Transforming with an integer dtype and then with a dtype whose
    bounds lie within its bounds gives what the second generator gives
    alone. *)
Theorem X11_narrowing_in_two_steps d1 fm1 g1 d2 fm2 g2 X :
  Num.__init__ d1 fm1 = Ok g1 -> Num.__init__ d2 fm2 = Ok g2 ->
  is_Some (integer_format (Num.dtype_out g1)) ->
  Num._clip_min g1 <= Num._clip_min g2 ->
  Num._clip_max g2 <= Num._clip_max g1 ->
  Num._transform g2 (Num._transform g1 X) = Num._transform g2 X.
Proof.
  intros H1%numeric_init_built H2%numeric_init_built [[s w] Hint] Hlo Hhi.
  pose proof (built_bounds _ H1). pose proof (built_bounds _ H2).
  apply clip_and_astype_twice. intros v.
  rewrite (proj2 (built_int_fixed g1 s w _ H1 Hint)) by (by apply clip_bounds).
  by rewrite clip_clip.
Qed.

(** ** Rounding twice *)

(** A number with [p] significant bits is its own rounding. *)
Lemma round_to_precision_exact p m e :
  0 < p -> 0 <= e -> 2 ^ (p - 1) <= m < 2 ^ p ->
  round_to_precision p (m * 2 ^ e) = m * 2 ^ e.
Proof.
  intros Hp He Hm.
  pow2_pos (p - 1). pow2_pos e.
  assert (Z.log2 m = p - 1) as Hlog.
  { apply Z.log2_unique; [lia|]. by replace (Z.succ (p - 1)) with p by lia. }
  unfold round_to_precision. rewrite Z.abs_eq by nia.
  rewrite Z.log2_mul_pow2, Hlog by lia.
  replace (e + (p - 1) + 1 - p) with e by lia.
  destruct (e <=? 0) eqn:He0; [done|]. apply Z.leb_gt in He0.
  rewrite Z.div_mul, Z.mod_mul by lia.
  pow2_pos (e - 1).
  rewrite (proj2 (Z.ltb_lt 0 (2 ^ (e - 1)))) by done.
  rewrite Z.sgn_pos by nia. lia.
Qed.

(** The rounding of a number: itself below [2 ^ p], else one of the two
    neighbours with [p] significant bits, the upper one only from the middle
    on and the lower one only up to the middle. *)
Lemma round_to_precision_cases p v :
  0 < p -> 0 <= v ->
  (v < 2 ^ p /\ round_to_precision p v = v) \/
  exists q e, e = Z.log2 v + 1 - p /\ 0 < e /\ 2 ^ (p - 1) <= q < 2 ^ p /\
    q * 2 ^ e <= v < (q + 1) * 2 ^ e /\
    ((round_to_precision p v = q * 2 ^ e /\ 2 * (v - q * 2 ^ e) <= 2 ^ e) \/
     (round_to_precision p v = (q + 1) * 2 ^ e /\
      2 ^ e <= 2 * (v - q * 2 ^ e))).
Proof.
  intros Hp Hv. unfold round_to_precision. rewrite Z.abs_eq by done.
  destruct (Z.log2 v + 1 - p <=? 0) eqn:He.
  { left. split; [|done]. apply Z.leb_le in He.
    destruct (decide (v = 0)) as [->|]; [by apply Z.pow_pos_nonneg; lia|].
    destruct (Z.log2_spec v ltac:(lia)) as [_ Hhi].
    eapply Z.lt_le_trans; [exact Hhi|]. apply Z.pow_le_mono_r; lia. }
  right. apply Z.leb_gt in He.
  assert (0 < v) as Hvpos.
  { destruct (decide (v = 0)) as [->|]; [|lia].
    rewrite Z.log2_nonpos in He; lia. }
  destruct (Z.log2_spec v Hvpos) as [Hlo Hhi].
  set (e := Z.log2 v + 1 - p) in *.
  pow2_pos e. pow2_pos (p - 1). pow2_pos (e - 1).
  assert (2 ^ Z.log2 v = 2 ^ (p - 1) * 2 ^ e) as Hlow.
  { rewrite <-Z.pow_add_r by lia. f_equal. lia. }
  assert (2 ^ Z.succ (Z.log2 v) = 2 * 2 ^ (p - 1) * 2 ^ e) as Hupp.
  { rewrite <-Z.mul_assoc, <-Z.pow_add_r, <-Z.pow_succ_r by lia. f_equal. lia. }
  assert (2 ^ p = 2 * 2 ^ (p - 1)) as Hpp.
  { rewrite <-Z.pow_succ_r by lia. f_equal. lia. }
  assert (2 ^ e = 2 * 2 ^ (e - 1)) as Hee.
  { rewrite <-Z.pow_succ_r by lia. f_equal. lia. }
  pose proof (Z.div_mod v (2 ^ e) ltac:(lia)) as Hdm.
  pose proof (Z.mod_pos_bound v (2 ^ e) ltac:(lia)) as Hr.
  set (q := v / 2 ^ e) in *. set (r := v mod 2 ^ e) in *.
  exists q, e. split; [done|]. split; [done|]. split; [nia|]. split; [nia|].
  rewrite Z.sgn_pos by done. rewrite !Z.mul_1_l.
  destruct (r <? 2 ^ (e - 1)) eqn:Hlt;
    [apply Z.ltb_lt in Hlt; left; split; lia|].
  apply Z.ltb_ge in Hlt.
  destruct (2 ^ (e - 1) <? r) eqn:Hgt;
    [apply Z.ltb_lt in Hgt; right; split; lia|].
  apply Z.ltb_ge in Hgt.
  destruct (Z.even q); [left|right]; split; lia.
Qed.

Lemma round_to_precision_idem_nonneg p v :
  0 < p -> 0 <= v ->
  round_to_precision p (round_to_precision p v) = round_to_precision p v.
Proof.
  intros Hp Hv.
  destruct (round_to_precision_cases p v Hp Hv)
    as [[_ Hsame]|(q & e & _ & He & Hq & _ & [[-> _]|[-> _]])];
    [by rewrite !Hsame|..].
  - apply round_to_precision_exact; lia.
  - destruct (decide (q + 1 = 2 ^ p)) as [Heq|Hne].
    + assert (2 ^ p = 2 * 2 ^ (p - 1)) as Hpp.
      { rewrite <-Z.pow_succ_r by lia. f_equal. lia. }
      pow2_pos (p - 1).
      replace ((q + 1) * 2 ^ e) with (2 ^ (p - 1) * 2 ^ (e + 1)).
      * apply round_to_precision_exact; lia.
      * rewrite Heq, Hpp, (Z.pow_add_r 2 e 1) by lia. lia.
    + apply round_to_precision_exact; lia.
Qed.

Lemma round_to_precision_idem p v :
  0 < p ->
  round_to_precision p (round_to_precision p v) = round_to_precision p v.
Proof.
  intros Hp. destruct (Z.le_ge_cases 0 v) as [H0|H0].
  - by apply round_to_precision_idem_nonneg.
  - pose proof (round_to_precision_idem_nonneg p (- v) Hp ltac:(lia)) as H.
    rewrite !round_to_precision_opp in H. lia.
Qed.

(** The cast of a cast value is that value. *)
Lemma built_astype_idem g v :
  built g -> Num._clip_min g <= v <= Num._clip_max g ->
  astype (Num.dtype_out g) (astype (Num.dtype_out g) v)
  = astype (Num.dtype_out g) v.
Proof.
  intros Hg Hv. pose proof Hg as Hg'.
  destruct Hg as [d s w fm lo hi Hfmt Hinfo|fd p emax fm Hint Hfmt].
  - rewrite (proj2 (built_int_fixed _ s w v Hg' Hfmt)) by done.
    by apply (built_int_fixed _ s w v Hg' Hfmt).
  - cbn [Num.dtype_out]. unfold astype. rewrite Hint, Hfmt.
    destruct (float_format_positive _ _ _ _ Hfmt).
    by apply round_to_precision_idem.
Qed.

(** X12.  The numeric [_transform] is idempotent, for integer and for float
    target dtypes. *)
Theorem X12_numeric_transform_is_idempotent d fm g X :
  Num.__init__ d fm = Ok g ->
  Num._transform g (Num._transform g X) = Num._transform g X.
Proof.
  intros Hg%numeric_init_built. pose proof (built_bounds _ Hg) as Hle.
  apply clip_and_astype_twice. intros v.
  rewrite (clip_inside _ _ (astype _ _)).
  - by apply built_astype_idem, clip_bounds.
  - by apply built_astype_bounds, clip_bounds.
Qed.

(** ** Order *)

Lemma round_to_precision_mono_nonneg p a b :
  0 < p -> 0 <= a -> a <= b ->
  round_to_precision p a <= round_to_precision p b.
Proof.
  intros Hp Ha Hab.
  destruct (decide (a = b)) as [->|Hneq]; [done|].
  assert (2 ^ p = 2 * 2 ^ (p - 1)) as Hpp.
  { rewrite <-Z.pow_succ_r by lia. f_equal. lia. }
  pow2_pos (p - 1).
  destruct (round_to_precision_cases p a Hp Ha)
    as [[Hsmall ->]|(qa & ea & Hea & Hea0 & Hqa & Hia & Hra)];
  destruct (round_to_precision_cases p b Hp ltac:(lia))
    as [[Hsmallb ->]|(qb & eb & Heb & Heb0 & Hqb & Hib & Hrb)].
  - done.
  - pow2_pos (eb - 1).
    assert (2 ^ eb = 2 * 2 ^ (eb - 1)) as Hee.
    { rewrite <-Z.pow_succ_r by lia. f_equal. lia. }
    assert (a <= qb * 2 ^ eb) by nia.
    destruct Hrb as [[-> _]|[-> _]]; nia.
  - pow2_pos (ea - 1).
    assert (2 ^ ea = 2 * 2 ^ (ea - 1)) as Hee.
    { rewrite <-Z.pow_succ_r by lia. f_equal. lia. }
    nia.
  - assert (ea <= eb) as Hle.
    { pose proof (Z.log2_le_mono a b Hab). lia. }
    clear Hea Heb. pow2_pos ea. pow2_pos eb.
    destruct (decide (ea = eb)) as [Heq|Hne].
    + subst eb.
      assert (qa <= qb) as Hq by nia.
      destruct (decide (qa = qb)) as [->|Hneqq].
      * destruct Hra as [[-> Hda]|[-> Hua]], Hrb as [[-> Hdb]|[-> Hub]]; lia.
      * assert ((qa + 1) * 2 ^ ea <= qb * 2 ^ ea) by nia.
        destruct Hra as [[-> _]|[-> _]], Hrb as [[-> _]|[-> _]]; nia.
    + assert (2 ^ eb = 2 ^ (ea + 1) * 2 ^ (eb - ea - 1)) as Hsplit.
      { rewrite <-Z.pow_add_r by lia. f_equal. lia. }
      pow2_pos (eb - ea - 1).
      assert (2 ^ (ea + 1) = 2 * 2 ^ ea) as Hsucc.
      { rewrite Z.pow_add_r by lia. lia. }
      assert (2 * 2 ^ ea <= 2 ^ eb) as Hstep by nia.
      assert ((qa + 1) * 2 ^ ea <= qb * 2 ^ eb) by nia.
      destruct Hra as [[-> _]|[-> _]], Hrb as [[-> _]|[-> _]]; nia.
Qed.

Lemma round_to_precision_mono p a b :
  0 < p -> a <= b -> round_to_precision p a <= round_to_precision p b.
Proof.
  intros Hp Hab.
  destruct (Z.le_ge_cases 0 a) as [Ha|Ha].
  - by apply round_to_precision_mono_nonneg.
  - destruct (Z.le_ge_cases 0 b) as [Hb|Hb].
    + pose proof (round_to_precision_nonneg p b Hb).
      pose proof (round_to_precision_nonneg p (- a) ltac:(lia)) as Hna.
      rewrite round_to_precision_opp in Hna. lia.
    + pose proof (round_to_precision_mono_nonneg p (- b) (- a) Hp
                    ltac:(lia) ltac:(lia)) as H.
      rewrite !round_to_precision_opp in H. lia.
Qed.

Lemma clip_mono lo hi a b : a <= b -> clip lo hi a <= clip lo hi b.
Proof. unfold clip. lia. Qed.

Lemma built_astype_mono g a b :
  built g ->
  Num._clip_min g <= a -> a <= b -> b <= Num._clip_max g ->
  astype (Num.dtype_out g) a <= astype (Num.dtype_out g) b.
Proof.
  intros Hg Ha Hab Hb. pose proof Hg as Hg'.
  destruct Hg as [d s w fm lo hi Hfmt Hinfo|fd p emax fm Hint Hfmt].
  - rewrite !(proj2 (built_int_fixed _ s w _ Hg' Hfmt)); cbn in *; lia.
  - cbn [Num.dtype_out]. unfold astype. rewrite Hint, Hfmt.
    destruct (float_format_positive _ _ _ _ Hfmt).
    by apply round_to_precision_mono.
Qed.

(** X13.  The numeric [_transform] keeps the order of the values of a
    column: of two rows, the one with the smaller input has the smaller or
    an equal output. *)
Theorem X13_numeric_transform_keeps_order d fm g X j name s :
  Num.__init__ d fm = Ok g ->
  columns X !! j = Some (name, s) ->
  exists s', columns (Num._transform g X) !! j = Some (name, s') /\
    forall r1 r2 v1 v2 v1' v2',
      series_values s !! r1 = Some v1 -> series_values s !! r2 = Some v2 ->
      series_values s' !! r1 = Some v1' -> series_values s' !! r2 = Some v2' ->
      v1 <= v2 -> v1' <= v2'.
Proof.
  intros Hg%numeric_init_built Hj. pose proof (built_bounds _ Hg) as Hle.
  eexists. split; [rewrite _transform_columns, Hj; reflexivity|].
  cbn [series_values snd].
  intros r1 r2 v1 v2 v1' v2' H1 H2. rewrite !list_lookup_fmap, H1, H2.
  intros [= <-] [= <-] Hv.
  pose proof (clip_bounds _ _ v1 Hle). pose proof (clip_bounds _ _ v2 Hle).
  apply built_astype_mono; [done|lia|by apply clip_mono|lia].
Qed.

(** ** Construction from the stored dtype *)

(** X14.  The dtype [__init__] stores is the one [np.iinfo] or [np.finfo]
    reports, an integer or a float dtype (a complex dtype is replaced by the
    dtype of its components); constructing from the stored dtype gives the
    same instance. *)
Theorem X14_stored_dtype_is_canonical d fm g :
  Num.__init__ d fm = Ok g ->
  Num.__init__ (Num.dtype_out g) fm = Ok g /\
  (is_Some (integer_format (Num.dtype_out g)) \/
   exists p emax,
     float_format (Num.dtype_out g) = Some (Num.dtype_out g, p, emax)).
Proof.
  intros Hinit. pose proof (numeric_init_built _ _ _ Hinit) as Hg.
  rewrite numeric_init_eq in Hinit |- *.
  destruct Hg as [d' s w fm' lo hi Hfmt Hinfo|fd p emax fm' Hint Hfmt];
    cbn [Num.dtype_out].
  - rewrite Hinfo. cbn. split; [|by left; eexists].
    destruct (iinfo d) as [i|]; [by simplify_eq|].
    destruct (finfo d); by simplify_eq.
  - unfold iinfo, finfo. rewrite Hint, Hfmt. cbn.
    split; [|right; eauto].
    destruct (iinfo d) as [i|]; [by simplify_eq|].
    destruct (finfo d); by simplify_eq.
Qed.

(** * Witnesses of the further properties *)

Lemma X1_witness :
  Cat._fit_transform 0%nat (Cat.mkState g0 [frame_mixed])
  = (Raise AttributeError, Cat.mkState g0 [frame_mixed]).
Proof.
  apply (X1_fit_rejects_other_frames g0 [frame_mixed] 0%nat frame_mixed).
  - reflexivity.
  - apply (bool_decide_unpack _). vm_compute. exact I.
Defined.

Lemma X2_witness :
  Cat._fit_transform 0%nat (Cat.mkState g0 [frame_no_columns])
  = (Ok (0%nat, type_group_map_special (Cat.feature_metadata_in g0)),
     Cat.mkState
       (Cat.mk (Cat.inplace g0) (Some []) (Cat.feature_metadata_in g0))
       [frame_no_columns]).
Proof.
  apply (X2_fit_without_columns g0 [frame_no_columns] 0%nat frame_no_columns).
  - reflexivity.
  - reflexivity.
Defined.

Lemma X3_witness :
  (forall Y, (Y < length [frame_of c1])%nat ->
     Cat.heap st_fit1 !! Y = [frame_of c1] !! Y) /\
  (length [frame_of c1] <= length (Cat.heap st_fit1)
   <= length [frame_of c1] + 1)%nat.
Proof.
  apply (X3_fit_copy_keeps_store g0 [frame_of c1] 0%nat (Ok (1%nat, []))
           st_fit1).
  - reflexivity.
  - vm_compute. reflexivity.
Defined.

Lemma X4_witness :
  Cat.self (Cat._transform 0%nat
              (Cat.mkState (Cat.mk true (Some maps1) fm0) [frame_of c1])).2
  = Cat.mk true (Some maps1) fm0 /\
  (length [frame_of c1]
   <= length (Cat.heap (Cat._transform 0%nat
                          (Cat.mkState (Cat.mk true (Some maps1) fm0)
                             [frame_of c1])).2)
   <= length [frame_of c1] + 1)%nat /\
  (Cat.inplace (Cat.mk true (Some maps1) fm0) = true ->
   length (Cat.heap (Cat._transform 0%nat
                       (Cat.mkState (Cat.mk true (Some maps1) fm0)
                          [frame_of c1])).2)
   = length [frame_of c1]).
Proof.
  apply (X4_transform_keeps_instance (Cat.mk true (Some maps1) fm0)
           [frame_of c1] 0%nat (frame_of c1) (Ok 0%nat)).
  - reflexivity.
  - vm_compute. reflexivity.
Defined.

Lemma X6_witness :
  exists st' df',
    Cat._transform 0%nat
      (Cat.mkState (Cat.mk true (Some maps2) fm0) [frame_of c1])
    = (Raise KeyError, st') /\
    Cat.heap st' !! 0%nat = Some df' /\
    index df' = index (frame_of c1) /\
    column_names df' = column_names (frame_of c1) /\
    (forall k' m c, k' ∈ ["color"%string] -> dict_get maps2 k' = Some m ->
       column_cat (frame_of c1) k' = Ok c ->
       exists c', column_cat df' k' = Ok c' /\
         codes c' = codes c /\
         length (categories c') = length (categories c) /\
         (forall j l i, categories c !! j = Some l -> m !! l = Some i ->
            categories c' !! j = Some (LInt i)) /\
         (forall j l, categories c !! j = Some l -> m !! l = None ->
            categories c' !! j = Some l)) /\
    (forall k', k' ∉ ["color"%string] ->
       column_cat df' k' = column_cat (frame_of c1) k') /\
    (forall p, p.1 ∉ ["color"%string] ->
       p ∈ columns df' <-> p ∈ columns (frame_of c1)).
Proof.
  apply (X6_inplace_failure_is_partial maps2 fm0 [frame_of c1] 0%nat
           (frame_of c1) ["color"%string] "size"%string [] KeyError).
  - reflexivity.
  - apply (bool_decide_unpack _). vm_compute. exact I.
  - reflexivity.
  - intros k' Hk. apply list_elem_of_singleton in Hk as ->.
    exists c1, (fitted_map (categories c1)).
    split; [reflexivity|]. split; [reflexivity|].
    exists [LInt 0; LInt 1; LInt 2]. split.
    + repeat constructor; intros; try discriminate;
        match goal with H : _ !! _ = Some _ |- _ =>
          vm_compute in H; congruence end.
    + apply (bool_decide_unpack _). vm_compute. exact I.
  - left. split; [|reflexivity].
    apply (bool_decide_unpack _). vm_compute. exact I.
Defined.


Lemma st_fit1_run :
  Cat._fit_transform 0%nat (Cat.mkState g0 [frame_of c1])
  = (Ok (1%nat, []), st_fit1).
Proof. vm_compute. reflexivity. Qed.

Lemma X8_witness :
  exists X_out st' df',
    Cat._transform 0%nat (Cat.mkState (Cat.self st_fit1) [frame_of c2])
    = (Ok X_out, st') /\
    Cat.heap st' !! X_out = Some df' /\
    forall k c1' c, (k, SCat c1') ∈ columns (frame_of c1) ->
      column_cat (frame_of c2) k = Ok c ->
      exists c', column_cat df' k = Ok c' /\
        (forall row l (i : nat),
           cat_values c !! row = Some (Some l) ->
           categories c1' !! i = Some l ->
           cat_values c' !! row = Some (Some (LInt (Z.of_nat i)))) /\
        (forall row, cat_values c !! row = Some None ->
                     cat_values c' !! row = Some None).
Proof.
  apply (X8_transform_uses_fit_codes g0 [frame_of c1] 0%nat (frame_of c1)
           (1%nat, []) st_fit1 [frame_of c2] 0%nat (frame_of c2)).
  - reflexivity.
  - exact frame_of_c1_wf.
  - exact st_fit1_run.
  - reflexivity.
  - intros k c1' Hin. apply list_elem_of_singleton in Hin.
    injection Hin as -> ->. exists c2. split; [reflexivity|].
    split; apply (bool_decide_unpack _); vm_compute; exact I.
Defined.

Lemma X9_witness :
  (exists X_out2 st2,
     Cat._transform 1%nat st_fit1 = (Ok X_out2, st2) /\
     Cat.heap st_fit1 !! 1%nat = Some (minimized_frame (frame_of c1)) /\
     Cat.heap st2 !! X_out2 = Some (minimized_frame (frame_of c1))) /\
  (exists st1' st2',
     Cat._fit_transform 0%nat
       (Cat.mkState (Cat.__init__ true fm0) [frame_of c_ints])
     = (Ok (0%nat, []), st1') /\
     Cat.heap st1' = [frame_of (mkCategorical [LInt 0; LInt 1] [0; 1])] /\
     Cat._transform 0%nat st1' = (Ok 0%nat, st2') /\
     Cat.heap st2' = [frame_of (mkCategorical [LInt 1; LInt 0] [0; 1])]).
Proof.
  apply (X9_second_transform_changes_nothing g0 [frame_of c1] 0%nat
           (frame_of c1) 1%nat [] st_fit1).
  - reflexivity.
  - exact frame_of_c1_wf.
  - apply (bool_decide_unpack _). vm_compute. exact I.
  - exact st_fit1_run.
Defined.

Lemma X10_witness :
  exists maps df',
    Cat._category_maps (Cat.self st_fit1) = Some maps /\
    Cat.heap st_fit1 !! 1%nat = Some df' /\
    forall k c, (k, SCat c) ∈ columns (frame_of c1) ->
      exists m c', dict_get maps k = Some m /\ column_cat df' k = Ok c' /\
        decode m <$> cat_values c' = cat_values c.
Proof.
  apply (X10_codes_decode_to_labels g0 [frame_of c1] 0%nat (frame_of c1)
           1%nat [] st_fit1).
  - reflexivity.
  - exact frame_of_c1_wf.
  - exact st_fit1_run.
Defined.

Lemma X11_witness :
  Num._transform g_uint8 (Num._transform g_int16 X_example)
  = Num._transform g_uint8 X_example.
Proof.
  apply (X11_narrowing_in_two_steps int16 fm0 g_int16 uint8 fm0 g_uint8
           X_example).
  - reflexivity.
  - reflexivity.
  - by eexists.
  - cbn. lia.
  - cbn. lia.
Defined.

Lemma X12_witness :
  Num._transform g_float32 (Num._transform g_float32 X_example)
  = Num._transform g_float32 X_example.
Proof.
  apply (X12_numeric_transform_is_idempotent float32 fm0 g_float32 X_example).
  reflexivity.
Defined.

Lemma X13_witness :
  exists s',
    columns (Num._transform g_uint8 X_example) !! 0%nat
    = Some ("x"%string, s') /\
    forall r1 r2 v1 v2 v1' v2',
      series_values (mkIntSeries int64 [-5; 0; 130; 255; 300]) !! r1 = Some v1 ->
      series_values (mkIntSeries int64 [-5; 0; 130; 255; 300]) !! r2 = Some v2 ->
      series_values s' !! r1 = Some v1' -> series_values s' !! r2 = Some v2' ->
      v1 <= v2 -> v1' <= v2'.
Proof.
  apply (X13_numeric_transform_keeps_order uint8 fm0 g_uint8 X_example 0%nat
           "x"%string (mkIntSeries int64 [-5; 0; 130; 255; 300])).
  - reflexivity.
  - reflexivity.
Defined.

Lemma X14_witness :
  Num.__init__ (Num.dtype_out g_float32) fm0 = Ok g_float32 /\
  (is_Some (integer_format (Num.dtype_out g_float32)) \/
   exists p emax,
     float_format (Num.dtype_out g_float32)
     = Some (Num.dtype_out g_float32, p, emax)).
Proof.
  apply (X14_stored_dtype_is_canonical complex64 fm0 g_float32).
  reflexivity.
Defined.
